(** * copilot-api: billing cycle, stream handlers, heartbeat and API-key gate

  A shallow embedding of the TypeScript sources
    - [lib/billing-cycle.ts]   (module [BillingCycle], [LockedBilling])
    - [lib/api-key-auth.ts]    (module [ApiKeyAuth])
    - [lib/sse-heartbeat.ts]   (module [Heartbeat])
    - [routes/chat-completions/handler.ts] and
      [routes/messages/handler.ts] (module [Handlers])
  together with a model of the streaming translator taken from the
  written specification (module [StreamTranslation]).

  JavaScript numbers that hold counters and millisecond time stamps are
  integers here ([Z]); [Date.now()] is an explicit argument. *)

From Stdlib Require Import Ascii String.
From stdpp Require Import base numbers option list strings gmap.

Local Open Scope Z_scope.

(* ===================================================================== *)
(** ** Billing cycle manager (billing-cycle.ts) *)
(* ===================================================================== *)

Module BillingCycle.

(** [const CYCLE_TIMEOUT_MS = 5 * 60 * 1000] *)
Definition CYCLE_TIMEOUT_MS : Z := 5 * 60 * 1000.

(** The return type ["user" | "agent"] of [determineInitiator]. *)
Inductive Initiator := User | Agent.

#[export] Instance Initiator_eq_dec : EqDecision Initiator.
Proof. solve_decision. Defined.

(** The three data fields of [class BillingCycleManager]; the [lock]
    field is modelled separately in [LockedBilling]. *)
Record BillingCycleManager := mkManager {
  inCycle : bool;
  lastResponseTime : Z;
  pendingResponses : Z
}.

(** Field initialisers of the class: the idle state. *)
Definition initial : BillingCycleManager :=
  {| inCycle := false; lastResponseTime := 0; pendingResponses := 0 |}.

(** The condition of the [if] at lines 36-40. *)
Definition timedOut (now : Z) (m : BillingCycleManager) : bool :=
  inCycle m
  && (pendingResponses m =? 0)
  && (now - lastResponseTime m >? CYCLE_TIMEOUT_MS).

(** Lines 36-42: [this.inCycle = false] when the condition holds. *)
Definition expireIfTimedOut (now : Z) (m : BillingCycleManager)
  : BillingCycleManager :=
  if timedOut now m
  then {| inCycle := false;
          lastResponseTime := lastResponseTime m;
          pendingResponses := pendingResponses m |}
  else m.

(** Lines 33-54, the body of the [try] block of [determineInitiator]
    with [now = Date.now()]. *)
Definition determineInitiator (now : Z) (m : BillingCycleManager)
  : Initiator * BillingCycleManager :=
  let m1 := expireIfTimedOut now m in
  if negb (inCycle m1)
  then (User, {| inCycle := true;
                 lastResponseTime := lastResponseTime m1;
                 pendingResponses := pendingResponses m1 + 1 |})
  else (Agent, {| inCycle := inCycle m1;
                  lastResponseTime := lastResponseTime m1;
                  pendingResponses := pendingResponses m1 + 1 |}).

(** [markResponseComplete()], lines 64-67. *)
Definition markResponseComplete (now : Z) (m : BillingCycleManager)
  : BillingCycleManager :=
  {| inCycle := inCycle m;
     lastResponseTime := now;
     pendingResponses := Z.max 0 (pendingResponses m - 1) |}.

(** [markRequestFailed()], lines 73-80. *)
Definition markRequestFailed (m : BillingCycleManager)
  : BillingCycleManager :=
  let p := Z.max 0 (pendingResponses m - 1) in
  {| inCycle := if (p =? 0) && (lastResponseTime m =? 0)
                then false else inCycle m;
     lastResponseTime := lastResponseTime m;
     pendingResponses := p |}.

(** [reset()], lines 100-104. *)
Definition reset (_ : BillingCycleManager) : BillingCycleManager := initial.

(** One call on the manager, with the clock reading it observes. *)
Inductive Call :=
| CallDetermine (now : Z)
| CallComplete (now : Z)
| CallFailed
| CallReset.

Definition perform (m : BillingCycleManager) (c : Call)
  : BillingCycleManager :=
  match c with
  | CallDetermine now => snd (determineInitiator now m)
  | CallComplete now => markResponseComplete now m
  | CallFailed => markRequestFailed m
  | CallReset => reset m
  end.

(** The state after a sequence of calls, oldest first. *)
Definition performAll (cs : list Call) (m : BillingCycleManager)
  : BillingCycleManager :=
  foldl perform m cs.

(** [getStatus()], lines 85-95: a snapshot of the three fields. *)
Definition getStatus (m : BillingCycleManager) : bool * Z * Z :=
  (inCycle m, lastResponseTime m, pendingResponses m).

Definition isDetermine (c : Call) : bool :=
  match c with CallDetermine _ => true | _ => false end.

Definition isHook (c : Call) : bool :=
  match c with CallComplete _ | CallFailed => true | _ => false end.

Definition isReset (c : Call) : bool :=
  match c with CallReset => true | _ => false end.

(** Number of calls in [cs] that satisfy [p]. *)
Definition callCount (p : Call → bool) (cs : list Call) : Z :=
  Z.of_nat (length (List.filter p cs)).

(** Consecutive calls of [determineInitiator] at the given clock
    readings, no hook in between: the verdicts and the final state. *)
Fixpoint determineAll (times : list Z) (m : BillingCycleManager)
  : list Initiator * BillingCycleManager :=
  match times with
  | [] => ([], m)
  | t :: rest =>
      let '(v, m1) := determineInitiator t m in
      let '(vs, m2) := determineAll rest m1 in
      (v :: vs, m2)
  end.

(** How a request ends: [markResponseComplete] at a clock reading, or
    [markRequestFailed]. *)
Inductive Settlement :=
| Completes (finished : Z)
| Fails.

Definition settle (s : Settlement) (m : BillingCycleManager)
  : BillingCycleManager :=
  match s with
  | Completes t => markResponseComplete t m
  | Fails => markRequestFailed m
  end.

(** Requests served one after the other: each calls
    [determineInitiator] at its arrival time and its hook before the next
    one arrives. *)
Fixpoint serveAll (rs : list (Z * Settlement)) (m : BillingCycleManager)
  : list Initiator * BillingCycleManager :=
  match rs with
  | [] => ([], m)
  | (asked, s) :: rest =>
      let '(v, m1) := determineInitiator asked m in
      let '(vs, m2) := serveAll rest (settle s m1) in
      (v :: vs, m2)
  end.

(** The verdicts one expects for requests that arrive at [asked] and
    complete at [finished], served one after the other: the first is
    billed, a later one is billed when it arrives more than the timeout
    after the completion before it. *)
Fixpoint billedAfterGap (previous : option Z) (rs : list (Z * Z))
  : list Initiator :=
  match rs with
  | [] => []
  | (asked, finished) :: rest =>
      (match previous with
       | None => User
       | Some p => if asked - p >? CYCLE_TIMEOUT_MS then User else Agent
       end) :: billedAfterGap (Some finished) rest
  end.

End BillingCycle.

(* ===================================================================== *)
(** ** Concurrent callers of [determineInitiator] and the promise lock *)
(* ===================================================================== *)

(** The JavaScript run loop executes one job at a time and a job runs
    without interruption until its next [await].  An invocation of the
    async method [determineInitiator] therefore consists of three jobs,
    cut at the two [await]s it meets (line 113 inside [acquireLock], line
    30 in the caller).  The order in which ready jobs of different
    invocations run is left to a scheduler; every order the run loop can
    produce is one of the schedules below. *)

Module LockedBilling.
Import BillingCycle.

Local Open Scope nat_scope.

(** The point an invocation has reached. *)
Inductive Task :=
| NotCalled
    (* the call has not been made yet *)
| AwaitLock (currentLock releaseLock : nat)
    (* suspended at [await currentLock] (line 113); the two local
       variables of [acquireLock] are live *)
| Acquired
    (* line 114 has run and [acquireLock] has returned; suspended at
       [await this.acquireLock()] (line 30) *)
| Returned (verdict : Initiator).
    (* the [try]/[finally] of lines 32-57 has run *)

#[export] Instance Task_eq_dec : EqDecision Task.
Proof. solve_decision. Defined.

(** The manager object together with the promises it has allocated.  A
    promise is an index into [promises]; the entry tells whether it has
    been resolved.  [releaseLock = None] is the initial no-op closure
    [() => {}] of line 117, [Some p] the resolver of promise [p]. *)
Record Runtime := mkRuntime {
  manager : BillingCycleManager;
  lock : nat;
  releaseLock : option nat;
  promises : list bool;
  tasks : list Task
}.

Definition resolved (w : Runtime) (p : nat) : bool :=
  default false (promises w !! p).

(** First job of invocation [i]: lines 28-30 and 108-113.  Reads
    [this.lock], allocates a new pending promise, stores it in
    [this.lock], and suspends on the promise read. *)
Definition callStart (i : nat) (w : Runtime) : Runtime :=
  {| manager := manager w;
     lock := length (promises w);
     releaseLock := releaseLock w;
     promises := promises w ++ [false];
     tasks := <[i := AwaitLock (lock w) (length (promises w))]> (tasks w) |}.

(** Second job: line 114, [this.releaseLock = releaseLock]. *)
Definition resumeAcquire (i rel : nat) (w : Runtime) : Runtime :=
  {| manager := manager w;
     lock := lock w;
     releaseLock := Some rel;
     promises := promises w;
     tasks := <[i := Acquired]> (tasks w) |}.

(** The call [this.releaseLock()] of line 56. *)
Definition callReleaseLock (w : Runtime) : list bool :=
  match releaseLock w with
  | Some p => <[p := true]> (promises w)
  | None => promises w
  end.

(** Third job: the [try] block (lines 33-54) followed by [finally]. *)
Definition resumeCritical (i : nat) (now : Z) (w : Runtime) : Runtime :=
  let '(v, m) := determineInitiator now (manager w) in
  {| manager := m;
     lock := lock w;
     releaseLock := releaseLock w;
     promises := callReleaseLock w;
     tasks := <[i := Returned v]> (tasks w) |}.

(** The scheduler picks invocation [i]; [now] is what [Date.now()]
    returns should the job read the clock.  [None]: the invocation has
    no job that is ready. *)
Definition step (w : Runtime) (choice : nat * Z) : option Runtime :=
  let '(i, now) := choice in
  match tasks w !! i with
  | Some NotCalled => Some (callStart i w)
  | Some (AwaitLock cur rel) =>
      if resolved w cur then Some (resumeAcquire i rel w) else None
  | Some Acquired => Some (resumeCritical i now w)
  | Some (Returned _) | None => None
  end.

Fixpoint run (schedule : list (nat * Z)) (w : Runtime) : option Runtime :=
  match schedule with
  | [] => Some w
  | c :: rest =>
      match step w c with
      | Some w' => run rest w'
      | None => None
      end
  end.

(** [n] calls are about to be made on a manager in state [m] on which
    [k] earlier invocations have run to their end: the initial
    [Promise.resolve()] (line 20) and the [k] promises allocated since
    are all resolved, [this.lock] is the last of them, and
    [this.releaseLock] is whatever resolver was stored last. *)
Definition settled (k : nat) (resolver : option nat) (n : nat)
    (m : BillingCycleManager) : Runtime :=
  {| manager := m;
     lock := k;
     releaseLock := resolver;
     promises := replicate (S k) true;
     tasks := replicate n NotCalled |}.

(** [n] calls on a manager that has not been used before. *)
Definition start (n : nat) (m : BillingCycleManager) : Runtime :=
  settled 0 None n m.

Definition isReturned (t : Task) : bool :=
  match t with Returned _ => true | _ => false end.

Definition allReturned (w : Runtime) : bool := forallb isReturned (tasks w).

(** Number of invocations that returned verdict [v]. *)
Definition verdicts (v : Initiator) (w : Runtime) : nat :=
  length (filter (λ t, t = Returned v) (tasks w)).

(** Number of invocations that are inside the lock: past
    [acquireLock], not yet through [finally]. *)
Definition holders (w : Runtime) : nat :=
  length (filter (λ t, t = Acquired) (tasks w)).

(** The schedule the run loop takes for [Promise.all] over [n] calls:
    every call runs to its first [await] in call order, then the
    invocations resume one after the other. *)
Definition fifoSchedule (n : nat) (now : Z) : list (nat * Z) :=
  map (λ i, (i, now)) (seq 0 n)
  ++ flat_map (λ i, [(i, now); (i, now)]) (seq 0 n).

(** How many of its three jobs an invocation has run. *)
Definition rank (t : Task) : nat :=
  match t with
  | NotCalled => 0
  | AwaitLock _ _ => 1
  | Acquired => 2
  | Returned _ => 3
  end.

Definition progress (w : Runtime) : nat := sum_list_with rank (tasks w).

(** The promise an invocation will resolve when it leaves the lock,
    when [k] promises beyond the initial one have been resolved: the one
    it allocated, which for the holder of the lock is promise [k + 1]. *)
Definition ticket (k : nat) (t : Task) : option nat :=
  match t with
  | AwaitLock _ rel => Some rel
  | Acquired => Some (S k)
  | NotCalled | Returned _ => None
  end.

(** The shape of the promise chain after [k] releases: promises
    [0..k] are resolved and the later ones pending; [this.lock] is the
    promise allocated last; each waiting invocation waits for the promise
    allocated just before its own; the holder's resolver is the one in
    [this.releaseLock]; and the pending promises correspond one to one to
    the invocations that have been called and have not returned. *)
Record chained (k : nat) (w : Runtime) : Prop := mkChained {
  lock_is_last : S (lock w) = length (promises w);
  resolved_upto : ∀ p, resolved w p = true ↔ p ≤ k;
  released_bound : k < length (promises w);
  waiting_next : ∀ i cur rel,
    tasks w !! i = Some (AwaitLock cur rel) →
    rel = S cur ∧ k < rel ∧ rel < length (promises w);
  holder_resolver : ∀ i,
    tasks w !! i = Some Acquired →
    releaseLock w = Some (S k) ∧ S k < length (promises w);
  ticket_unique : ∀ i j p,
    tasks w !! i ≫= ticket k = Some p →
    tasks w !! j ≫= ticket k = Some p → i = j;
  ticket_owned : ∀ p,
    k < p → p < length (promises w) →
    ∃ i, tasks w !! i ≫= ticket k = Some p
}.

(** The billing state when the calls started on an idle cycle:
    [pendingResponses] counts the invocations that have returned, the
    cycle is open as soon as one has, and that one was billed. *)
Record billedOnce (w : Runtime) : Prop := mkBilledOnce {
  pending_counts :
    pendingResponses (manager w)
    = Z.of_nat (verdicts User w + verdicts Agent w);
  open_once_returned :
    inCycle (manager w) = bool_decide (verdicts User w + verdicts Agent w ≠ 0);
  users_billed :
    verdicts User w = if inCycle (manager w) then 1 else 0
}.

(** Invocation [i] called first and has not returned: it owns the
    first pending promise of the chain, nobody has returned, and the
    cycle is still closed. *)
Record firstWaits (k i : nat) (w : Runtime) : Prop := mkFirstWaits {
  first_chain : chained k w;
  first_closed : inCycle (manager w) = false;
  first_ticket : tasks w !! i ≫= ticket k = Some (S k);
  first_nobody : ∀ j v, tasks w !! j ≠ Some (Returned v)
}.

End LockedBilling.

(* ===================================================================== *)
(** ** API-key middleware (api-key-auth.ts) *)
(* ===================================================================== *)

Module ApiKeyAuth.

(** The two headers the middleware reads; [None] is [undefined]. *)
Record Request := mkRequest {
  Authorization : option string;
  X_API_Key : option string
}.

(** What the middleware does: hand over to [next()], or throw. *)
Inductive Outcome :=
| Next
| HTTPException (status : Z) (message : string).

(** JavaScript truthiness of a [string | undefined]. *)
Definition truthy (v : option string) : bool :=
  match v with
  | Some s => negb (String.eqb s "")
  | None => false
  end.

(** [s.slice(n)] for [0 <= n]. *)
Definition slice (n : nat) (s : string) : string :=
  String.substring n (String.length s - n) s.

(** [authHeader?.startsWith(p)]; [undefined] is falsy. *)
Definition optStartsWith (p : string) (v : option string) : bool :=
  match v with
  | Some s => String.prefix p s
  | None => false
  end.

(** Lines 19-31: the key the request provides. *)
Definition providedKey (req : Request) : option string :=
  if optStartsWith "Bearer " (Authorization req)
  then slice 7 <$> Authorization req
  else if truthy (X_API_Key req)
       then X_API_Key req
       else None.

(** [apiKeyAuth(c, next)] with [state.apiKey = apiKey]. *)
Definition apiKeyAuth (apiKey : option string) (req : Request) : Outcome :=
  if negb (truthy apiKey) then Next
  else
    let k := providedKey req in
    if negb (truthy k) || negb (bool_decide (k = apiKey))
    then HTTPException 401 "Invalid or missing API key"
    else Next.

End ApiKeyAuth.

(* ===================================================================== *)
(** ** SSE heartbeat (sse-heartbeat.ts) *)
(* ===================================================================== *)

Module Heartbeat.

(** Results of [Number(...)] on an environment variable. *)
Inductive JSNumber := NaN | Num (z : Z).

Definition digitValue (c : ascii) : option Z :=
  let n := Z.of_nat (nat_of_ascii c) in
  if (48 <=? n) && (n <=? 57) then Some (n - 48) else None.

Fixpoint decimal (acc : Z) (s : string) : option Z :=
  match s with
  | EmptyString => Some acc
  | String c rest =>
      match digitValue c with
      | Some d => decimal (10 * acc + d) rest
      | None => None
      end
  end.

(** [Number(v)] for [v : string | undefined], on the inputs a
    millisecond setting is written with: [undefined] gives [NaN], the
    empty string [0], a run of decimal digits its value.  Any other text
    is read as [NaN] here, as JavaScript does for text that is not a
    numeric literal; signs, fractions, exponents, radix prefixes,
    surrounding white space and digit runs too long for a double to hold
    exactly are outside this model. *)
Definition Number (v : option string) : JSNumber :=
  match v with
  | None => NaN
  | Some s =>
      match decimal 0 s with
      | Some z => Num z
      | None => NaN
      end
  end.

(** [x || d] for a number [x]: [NaN] and [0] are falsy. *)
Definition orDefault (x : JSNumber) (d : Z) : Z :=
  match x with
  | NaN => d
  | Num z => if z =? 0 then d else z
  end.

Record SSEHeartbeatConfig := mkConfig {
  interval : Z;
  enabled : bool;
  maxConnectionDuration : Z
}.

(** The part of [process.env] read at lines 60-63. *)
Record Env := mkEnv {
  SSE_HEARTBEAT_INTERVAL : option string;
  SSE_HEARTBEAT_ENABLED : option string;
  SSE_MAX_CONNECTION_DURATION : option string
}.

(** Lines 59-64. *)
Definition DEFAULT_HEARTBEAT_CONFIG (env : Env) : SSEHeartbeatConfig :=
  {| interval := orDefault (Number (SSE_HEARTBEAT_INTERVAL env)) 2000;
     enabled := negb (bool_decide (SSE_HEARTBEAT_ENABLED env = Some "false"));
     maxConnectionDuration :=
       orDefault (Number (SSE_MAX_CONNECTION_DURATION env)) 600000 |}.

(** [Partial<SSEHeartbeatConfig>]. *)
Record PartialConfig := mkPartial {
  interval' : option Z;
  enabled' : option bool;
  maxConnectionDuration' : option Z
}.

Definition noOverride : PartialConfig :=
  {| interval' := None; enabled' := None; maxConnectionDuration' := None |}.

(** [{ ...DEFAULT_HEARTBEAT_CONFIG, ...config }], line 79. *)
Definition spread (d : SSEHeartbeatConfig) (c : PartialConfig)
  : SSEHeartbeatConfig :=
  {| interval := default (interval d) (interval' c);
     enabled := default (enabled d) (enabled' c);
     maxConnectionDuration :=
       default (maxConnectionDuration d) (maxConnectionDuration' c) |}.

(** The fields of [SSEHeartbeatManager]; [timer = true] when an
    interval timer is armed.  (The request id only labels log lines.) *)
Record SSEHeartbeatManager := mkHeartbeat {
  timer : bool;
  heartbeatCount : Z;
  startTime : Z;
  config : SSEHeartbeatConfig
}.

(** [createHeartbeatManager(requestId, config)], lines 77-80, 164-169. *)
Definition createHeartbeatManager (env : Env) (c : PartialConfig)
  : SSEHeartbeatManager :=
  {| timer := false;
     heartbeatCount := 0;
     startTime := 0;
     config := spread (DEFAULT_HEARTBEAT_CONFIG env) c |}.

(** The keepalive frame of line 106: [": heartbeat\n\n"]. *)
Definition heartbeatFrame : string :=
  String.append ": heartbeat" (String "010" (String "010" EmptyString)).

(** What a tick does to the outside. *)
Inductive Action :=
| Wrote (data : string)
| WriteRejected
| TimerCleared
| OnMaxDuration.

#[export] Instance Action_eq_dec : EqDecision Action.
Proof. solve_decision. Defined.

(** [start(stream, onMaxDuration)], lines 91-129, up to arming the
    timer; [now = Date.now()].  This is [start] on a manager that holds
    no interval, as the handlers call it: once, on a manager they have
    just created.  [HeartbeatLoop.start] below also covers a manager
    that is started while it holds one. *)
Definition start (now : Z) (h : SSEHeartbeatManager) : SSEHeartbeatManager :=
  if negb (enabled (config h)) then h
  else {| timer := true;
          heartbeatCount := 0;
          startTime := now;
          config := config h |}.

(** [stop()], lines 135-145. *)
Definition stop (h : SSEHeartbeatManager)
  : SSEHeartbeatManager * list Action :=
  if timer h
  then ({| timer := false;
           heartbeatCount := heartbeatCount h;
           startTime := startTime h;
           config := config h |}, [TimerCleared])
  else (h, []).

(** The timer callback, lines 103-128, when nothing else runs while it
    waits for its write.  [writeOk] tells whether [stream.write]
    resolves; [now] is the clock at line 115.  The callback cut at its
    [await] is [HeartbeatLoop.callbackBegin] followed by
    [HeartbeatLoop.callbackResume]. *)
Definition tick (writeOk : bool) (now : Z) (h : SSEHeartbeatManager)
  : SSEHeartbeatManager * list Action :=
  let h1 := {| timer := timer h;
               heartbeatCount := heartbeatCount h + 1;
               startTime := startTime h;
               config := config h |} in
  if negb writeOk then (h1, [WriteRejected])
  else if (maxConnectionDuration (config h1) >? 0)
          && (now - startTime h1 >? maxConnectionDuration (config h1))
       then let '(h2, acts) := stop h1 in
            (h2, Wrote heartbeatFrame :: acts ++ [OnMaxDuration])
       else (h1, [Wrote heartbeatFrame]).

(** The interval timer fires the callback only while it is armed. *)
Definition fire (h : SSEHeartbeatManager) (t : bool * Z)
  : SSEHeartbeatManager * list Action :=
  if timer h then tick (fst t) (snd t) h else (h, []).

(** A session over a sequence of timer firings; the actions of all
    ticks in order. *)
Fixpoint session (ts : list (bool * Z)) (h : SSEHeartbeatManager)
  : SSEHeartbeatManager * list Action :=
  match ts with
  | [] => (h, [])
  | t :: rest =>
      let '(h1, a1) := fire h t in
      let '(h2, a2) := session rest h1 in
      (h2, a1 ++ a2)
  end.

(** [getStats()], lines 150-156, with [now = Date.now()]. *)
Definition getStats (now : Z) (h : SSEHeartbeatManager)
  : Z * Z * SSEHeartbeatConfig :=
  (heartbeatCount h, now - startTime h, config h).

(** The two actions of the duration check. *)
Definition isCut (a : Action) : bool :=
  match a with TimerCleared | OnMaxDuration => true | _ => false end.

(** A call of [stream.write], resolved or rejected. *)
Definition isAttempt (a : Action) : bool :=
  match a with Wrote _ | WriteRejected => true | _ => false end.


End Heartbeat.

(* ===================================================================== *)
(** ** The heartbeat manager on the run loop (sse-heartbeat.ts) *)
(* ===================================================================== *)

Module HeartbeatLoop.

Local Open Scope nat_scope.

(** The manager together with the part of the run loop it acts on.
    [setInterval] gives a new interval at every [start], whether or not
    [this.timer] holds one already, and only [clearInterval] ends it;
    the callback of an interval waits at line 106 for [stream.write] to
    settle, and other callbacks, [stop] and [start] run meanwhile. *)
Record Loop := mkLoop {
  timer : option nat;
    (* [this.timer]: the interval the manager holds *)
  heartbeatCount : Z;
  startTime : Z;
  config : Heartbeat.SSEHeartbeatConfig;
  intervals : list nat;
    (* the intervals created by [setInterval] and not cleared *)
  created : nat;
    (* how many intervals have been created: the next one's handle *)
  waiting : nat
    (* callbacks waiting at line 106 for their write to settle *)
}.

(** [createHeartbeatManager(requestId, config)], lines 77-80, 164-169. *)
Definition createHeartbeatManager (env : Heartbeat.Env)
    (c : Heartbeat.PartialConfig) : Loop :=
  {| timer := None;
     heartbeatCount := 0;
     startTime := 0;
     config := Heartbeat.spread (Heartbeat.DEFAULT_HEARTBEAT_CONFIG env) c;
     intervals := [];
     created := 0;
     waiting := 0 |}.

(** The calls the manager makes on the stream, the run loop and its
    caller. *)
Inductive Call :=
| StreamWrite (data : string)
| ClearInterval (handle : nat)
| OnMaxDuration.

#[export] Instance Call_eq_dec : EqDecision Call.
Proof. solve_decision. Defined.

(** [start(stream, onMaxDuration)], lines 87-130; [now = Date.now()].
    Line 103 overwrites [this.timer] without clearing what it held. *)
Definition start (now : Z) (s : Loop) : Loop :=
  if negb (Heartbeat.enabled (config s)) then s
  else {| timer := Some (created s);
          heartbeatCount := 0;
          startTime := now;
          config := config s;
          intervals := created s :: intervals s;
          created := S (created s);
          waiting := waiting s |}.

(** [stop()], lines 135-145. *)
Definition stop (s : Loop) : Loop * list Call :=
  match timer s with
  | Some h =>
      ({| timer := None;
          heartbeatCount := heartbeatCount s;
          startTime := startTime s;
          config := config s;
          intervals := filter (λ i, i ≠ h) (intervals s);
          created := created s;
          waiting := waiting s |}, [ClearInterval h])
  | None => (s, [])
  end.

(** The callback up to its [await], lines 104-106. *)
Definition callbackBegin (s : Loop) : Loop * list Call :=
  ({| timer := timer s;
      heartbeatCount := (heartbeatCount s + 1)%Z;
      startTime := startTime s;
      config := config s;
      intervals := intervals s;
      created := created s;
      waiting := S (waiting s) |},
   [StreamWrite Heartbeat.heartbeatFrame]).

(** The callback from its [await] on, lines 108-127.  [writeOk] tells
    whether the write resolved; [now] is the clock at line 115. *)
Definition callbackResume (writeOk : bool) (now : Z) (s : Loop)
  : Loop * list Call :=
  let s1 := {| timer := timer s;
               heartbeatCount := heartbeatCount s;
               startTime := startTime s;
               config := config s;
               intervals := intervals s;
               created := created s;
               waiting := pred (waiting s) |} in
  if negb writeOk then (s1, [])
  else if ((Heartbeat.maxConnectionDuration (config s1) >? 0)
           && (now - startTime s1
               >? Heartbeat.maxConnectionDuration (config s1)))%Z
       then let '(s2, calls) := stop s1 in (s2, calls ++ [OnMaxDuration])
       else (s1, []).

(** What the run loop runs next. *)
Inductive Event :=
| StartCalled (now : Z)
| StopCalled
| IntervalFires (handle : nat)
| WriteSettles (writeOk : bool) (now : Z).

(** One job of the run loop.  Only an interval that has not been
    cleared fires, and only a write that is waited for settles. *)
Definition step (s : Loop) (e : Event) : option (Loop * list Call) :=
  match e with
  | StartCalled now => Some (start now s, [])
  | StopCalled => Some (stop s)
  | IntervalFires h =>
      if bool_decide (h ∈ intervals s) then Some (callbackBegin s) else None
  | WriteSettles writeOk now =>
      match waiting s with
      | O => None
      | S _ => Some (callbackResume writeOk now s)
      end
  end.

(** The jobs [es] in order, with the calls they make; [None] when one
    of them cannot run. *)
Fixpoint run (es : list Event) (s : Loop) : option (Loop * list Call) :=
  match es with
  | [] => Some (s, [])
  | e :: rest =>
      match step s e with
      | Some (s1, c1) =>
          match run rest s1 with
          | Some (s2, c2) => Some (s2, c1 ++ c2)
          | None => None
          end
      | None => None
      end
  end.

(** The manager holds every interval that is live: none has leaked. *)
Definition holdsItsIntervals (s : Loop) : Prop :=
  ∀ h, h ∈ intervals s → timer s = Some h.

Definition isStartCalled (e : Event) : bool :=
  match e with StartCalled _ => true | _ => false end.

(** No job of [es] is a call of [start]. *)
Definition withoutStart (es : list Event) : bool :=
  forallb (λ e, negb (isStartCalled e)) es.

Definition isStreamWrite (c : Call) : bool :=
  match c with StreamWrite _ => true | _ => false end.

Definition isClearInterval (c : Call) : bool :=
  match c with ClearInterval _ => true | _ => false end.

Definition isOnMaxDuration (c : Call) : bool :=
  match c with OnMaxDuration => true | _ => false end.

(** Behind the first [clearInterval] of [calls] there are only calls of
    [onMaxDuration]: no write and no second [clearInterval]. *)
Fixpoint quietAfterClear (calls : list Call) : bool :=
  match calls with
  | [] => true
  | ClearInterval _ :: rest => forallb isOnMaxDuration rest
  | _ :: rest => quietAfterClear rest
  end.

(** The manager of module [Heartbeat] that a run-loop state holds. *)
Definition manager (s : Loop) : Heartbeat.SSEHeartbeatManager :=
  {| Heartbeat.timer := bool_decide (is_Some (timer s));
     Heartbeat.heartbeatCount := heartbeatCount s;
     Heartbeat.startTime := startTime s;
     Heartbeat.config := config s |}.

(** The call behind an action of module [Heartbeat], for the interval
    [h]: a write is called whether it resolves or not. *)
Definition callOf (h : nat) (a : Heartbeat.Action) : Call :=
  match a with
  | Heartbeat.Wrote d => StreamWrite d
  | Heartbeat.WriteRejected => StreamWrite Heartbeat.heartbeatFrame
  | Heartbeat.TimerCleared => ClearInterval h
  | Heartbeat.OnMaxDuration => OnMaxDuration
  end.

End HeartbeatLoop.

(* ===================================================================== *)
(** ** Streaming translator (stream-translation.ts is not among the
       sources; the model follows the written specification, 4.3) *)
(* ===================================================================== *)

Module StreamTranslation.

Local Open Scope nat_scope.

(** Modelled from the spec: the backend's finish reasons named by the
    finish-reason mapping (normal stop, length limit, tool invocation). *)
Inductive FinishReason := FinishStop | FinishLength | FinishToolCalls.

Inductive StopReason := end_turn | max_tokens | tool_use.

(** Modelled from the spec: the finish-reason mapping
    "length-limit -> max_tokens, tool invocation -> tool_use, normal stop
    -> end_turn". *)
Definition mapStopReason (r : FinishReason) : StopReason :=
  match r with
  | FinishStop => end_turn
  | FinishLength => max_tokens
  | FinishToolCalls => tool_use
  end.

(** Modelled from the spec: a tool-call fragment "identified by a small
    integer index"; the name comes with the fragment that introduces the
    call, argument text with the later ones. *)
Record ToolFragment := mkToolFragment {
  callIndex : nat;
  callName : option string;
  callArguments : option string
}.

(** Modelled from the spec: a backend delta frame, "carrying an optional
    text fragment and/or a tool-call fragment", usage numbers, and on the
    terminal frame "a non-null finish reason". *)
Record Frame := mkFrame {
  text : option string;
  toolCall : option ToolFragment;
  finishReason : option FinishReason;
  usage : option Z
}.

Inductive BlockKind := TextBlock | ToolUseBlock.

#[export] Instance BlockKind_eq_dec : EqDecision BlockKind.
Proof. solve_decision. Defined.

(** Modelled from the spec: the six named wire events of section 6. *)
Inductive Event :=
| message_start
| content_block_start (index : nat) (kind : BlockKind) (name : string)
| content_block_delta (index : nat) (fragment : string)
| content_block_stop (index : nat)
| message_delta (reason : StopReason) (usageTotal : Z)
| message_stop.

#[export] Instance StopReason_eq_dec : EqDecision StopReason.
Proof. solve_decision. Defined.

#[export] Instance Event_eq_dec : EqDecision Event.
Proof. solve_decision. Defined.

(** Modelled from the spec: [StreamTranslationState] of section 3
    ([messageStarted], [openBlockIndex], [blockKind],
    [toolAccumulators] from call index to name and buffered argument
    text), with the two counters its rules need: the index the next
    block gets ("increasing index starting at 0") and the running usage
    total. *)
Record StreamTranslationState := mkState {
  messageStarted : bool;
  openBlockIndex : option nat;
  blockKind : option BlockKind;
  toolAccumulators : gmap nat (string * string);
  nextBlockIndex : nat;
  usageTotal : Z
}.

Definition initialState : StreamTranslationState :=
  {| messageStarted := false;
     openBlockIndex := None;
     blockKind := None;
     toolAccumulators := ∅;
     nextBlockIndex := 0;
     usageTotal := 0 |}.

(** Modelled from the spec: "exactly one [message_start] event, emitted
    on the first frame of the stream, before any other event". *)
Definition startMessage (st : StreamTranslationState)
  : list Event * StreamTranslationState :=
  if messageStarted st then ([], st)
  else ([message_start],
        {| messageStarted := true;
           openBlockIndex := openBlockIndex st;
           blockKind := blockKind st;
           toolAccumulators := toolAccumulators st;
           nextBlockIndex := nextBlockIndex st;
           usageTotal := usageTotal st |}).

(** Modelled from the spec: a frame "still folds any usage numbers it
    carries into a running total". *)
Definition foldUsage (u : option Z) (st : StreamTranslationState)
  : StreamTranslationState :=
  {| messageStarted := messageStarted st;
     openBlockIndex := openBlockIndex st;
     blockKind := blockKind st;
     toolAccumulators := toolAccumulators st;
     nextBlockIndex := nextBlockIndex st;
     usageTotal := (usageTotal st + default 0%Z u)%Z |}.

(** Modelled from the spec: a block "ends with exactly one
    [content_block_stop]"; nothing to do when no block is open. *)
Definition closeBlock (st : StreamTranslationState)
  : list Event * StreamTranslationState :=
  match openBlockIndex st with
  | Some i =>
      ([content_block_stop i],
       {| messageStarted := messageStarted st;
          openBlockIndex := None;
          blockKind := None;
          toolAccumulators := toolAccumulators st;
          nextBlockIndex := nextBlockIndex st;
          usageTotal := usageTotal st |})
  | None => ([], st)
  end.

(** Modelled from the spec: "a new block may only start after the
    previous one has been stopped"; it "begins with exactly one
    [content_block_start]" and takes the next index. *)
Definition openBlock (k : BlockKind) (name : string)
    (st : StreamTranslationState) : list Event * StreamTranslationState :=
  let '(stops, st1) := closeBlock st in
  let i := nextBlockIndex st1 in
  (stops ++ [content_block_start i k name],
   {| messageStarted := messageStarted st1;
      openBlockIndex := Some i;
      blockKind := Some k;
      toolAccumulators := toolAccumulators st1;
      nextBlockIndex := S i;
      usageTotal := usageTotal st1 |}).

(** A block of kind [k] is open after this: the open block is kept when
    it has that kind, otherwise ("a text fragment while a tool-call block
    is open (or vice versa) forces a stop of the current block before
    the new one starts") a new one is opened. *)
Definition ensureBlock (k : BlockKind) (name : string)
    (st : StreamTranslationState) : list Event * StreamTranslationState :=
  match openBlockIndex st with
  | Some _ =>
      if bool_decide (blockKind st = Some k) then ([], st)
      else openBlock k name st
  | None => openBlock k name st
  end.

Definition deltaEvent (fragment : string) (st : StreamTranslationState)
  : Event :=
  content_block_delta (default 0 (openBlockIndex st)) fragment.

(** Modelled from the spec: a text fragment goes to the open text block,
    opening one first when needed. *)
Definition onText (t : option string) (st : StreamTranslationState)
  : list Event * StreamTranslationState :=
  match t with
  | None => ([], st)
  | Some s =>
      let '(evs, st1) := ensureBlock TextBlock "" st in
      (evs ++ [deltaEvent s st1], st1)
  end.

Definition setAccumulator (i : nat) (acc : string * string)
    (st : StreamTranslationState) : StreamTranslationState :=
  {| messageStarted := messageStarted st;
     openBlockIndex := openBlockIndex st;
     blockKind := blockKind st;
     toolAccumulators := <[i := acc]> (toolAccumulators st);
     nextBlockIndex := nextBlockIndex st;
     usageTotal := usageTotal st |}.

(** Modelled from the spec: "a fragment for a previously unseen
    tool-call index opens a new tool-use block (name taken from that
    fragment) and subsequent fragments for the same index append to a
    buffered argument string emitted as successive [content_block_delta]
    events"; the buffer is not parsed here. *)
Definition onToolCall (f : option ToolFragment) (st : StreamTranslationState)
  : list Event * StreamTranslationState :=
  match f with
  | None => ([], st)
  | Some fr =>
      let '(evs, name, buffered, st1) :=
        match toolAccumulators st !! callIndex fr with
        | None =>
            let name := default "" (callName fr) in
            let '(evs, st1) := openBlock ToolUseBlock name st in
            (evs, name, "", st1)
        | Some (name, buffered) =>
            let '(evs, st1) := ensureBlock ToolUseBlock name st in
            (evs, name, buffered, st1)
        end in
      match callArguments fr with
      | None => (evs, setAccumulator (callIndex fr) (name, buffered) st1)
      | Some a =>
          (evs ++ [deltaEvent a st1],
           setAccumulator (callIndex fr)
             (name, String.append buffered a) st1)
      end
  end.

(** Modelled from the spec: "the terminal frame forces closure of any
    still-open block, then emits exactly one [message_delta] (carrying
    the mapped stop reason and final usage) and exactly one
    [message_stop]". *)
Definition onFinish (r : option FinishReason) (st : StreamTranslationState)
  : list Event * StreamTranslationState :=
  match r with
  | None => ([], st)
  | Some reason =>
      let '(stops, st1) := closeBlock st in
      (stops ++ [message_delta (mapStopReason reason) (usageTotal st1);
                 message_stop], st1)
  end.

(** Modelled from the spec: the stateful chunk-to-events expander,
    one frame at a time.  The first frame starts the message whatever it
    carries; apart from that a frame without text, tool fragment and
    finish reason "produces zero output events" and only adds its usage
    numbers. *)
Definition translateChunk (f : Frame) (st : StreamTranslationState)
  : list Event * StreamTranslationState :=
  let '(e0, st0) := startMessage st in
  let st1 := foldUsage (usage f) st0 in
  let '(e1, st2) := onText (text f) st1 in
  let '(e2, st3) := onToolCall (toolCall f) st2 in
  let '(e3, st4) := onFinish (finishReason f) st3 in
  (e0 ++ e1 ++ e2 ++ e3, st4).


(** Modelled from the spec: the events of a whole stream, "feed each
    through the stateful translator", frame after frame on one state.
    The translator's file is not among the sources; its driver is, and
    the loop of the messages handler (lines 167-187) hands every chunk
    it pulls to the translator, also the chunks behind a terminal
    frame. *)
Fixpoint translateFrom (st : StreamTranslationState) (fs : list Frame)
  : list Event :=
  match fs with
  | [] => []
  | f :: rest =>
      let '(evs, st1) := translateChunk f st in
      evs ++ translateFrom st1 rest
  end.

Definition translateStream (fs : list Frame) : list Event :=
  translateFrom initialState fs.









(** The order the wire protocol prescribes. *)
Inductive Phase := Fresh | Idle | InBlock | Closing | Done.




#[export] Instance Phase_eq_dec : EqDecision Phase.
Proof. solve_decision. Defined.




End StreamTranslation.

(* ===================================================================== *)
(** ** The two request handlers (handler.ts of chat-completions and of
       messages), from the backend call on *)
(* ===================================================================== *)

Module Handlers.
Import BillingCycle.

Local Open Scope nat_scope.

(** A thrown value. *)
Definition Exn := string.

(** One server-sent event as the handlers see it: [data] may be absent. *)
Record SSEMessage := mkSSE {
  event : option string;
  data : option string
}.

(** What pulling the next item of the backend's async sequence gives. *)
Inductive Pull :=
| Yields (chunk : SSEMessage)
| Throws (error : Exn).

(** A value returned by [createChatCompletions]: a JavaScript object with
    its own properties (each with its JSON text) and, when it is an async
    iterable, the items iterating it gives. *)
Record BackendValue := mkBackendValue {
  ownProperties : gmap string string;
  items : list Pull
}.

(** Calls the handlers make on their collaborators. *)
Inductive Effect :=
| HeartbeatStart
| HeartbeatStop
| WriteSSE (message : SSEMessage)
| MarkResponseComplete
| MarkRequestFailed.

#[export] Instance SSEMessage_eq_dec : EqDecision SSEMessage.
Proof. solve_decision. Defined.

#[export] Instance Effect_eq_dec : EqDecision Effect.
Proof. solve_decision. Defined.

(** The world a handler acts on: the billing singleton, the calls made
    so far (oldest first) and the number of [writeSSE] calls so far. *)
Record World := mkWorld {
  billing : BillingCycleManager;
  trace : list Effect;
  writes : nat
}.

(** A computation that may throw. *)
Definition M (A : Type) : Type := World → World * (Exn + A).

#[export] Instance M_ret : MRet M := λ A a w, (w, inr a).

Definition throw {A} (e : Exn) : M A := λ w, (w, inl e).

#[export] Instance M_bind : MBind M := λ A B k m w,
  let '(w1, r) := m w in
  match r with
  | inl e => (w1, inl e)
  | inr a => k a w1
  end.

(** [try { body } catch (e) { handler e } finally { cleanup }]. *)
Definition tryCatchFinally {A} (body : M A) (handler : Exn → M A)
    (cleanup : M unit) : M A :=
  λ w, let '(w1, r1) := body w in
       let '(w2, r2) :=
         match r1 with
         | inl e => handler e w1
         | inr a => (w1, inr a)
         end in
       let '(w3, r3) := cleanup w2 in
       match r3 with
       | inl e => (w3, inl e)
       | inr _ => (w3, r2)
       end.

Definition record (e : Effect) (w : World) : World :=
  {| billing := billing w; trace := trace w ++ [e]; writes := writes w |}.

(** [heartbeatManager.start(stream, ...)] and [heartbeatManager.stop()];
    the manager itself is the subject of module [Heartbeat]. *)
Definition heartbeatStart : M unit := λ w, (record HeartbeatStart w, inr tt).
Definition heartbeatStop : M unit := λ w, (record HeartbeatStop w, inr tt).

(** [billingCycleManager.markResponseComplete()] at clock [now]. *)
Definition markResponseComplete (now : Z) : M unit :=
  λ w, ({| billing := BillingCycle.markResponseComplete now (billing w);
           trace := trace w ++ [MarkResponseComplete];
           writes := writes w |}, inr tt).

(** [billingCycleManager.markRequestFailed()]. *)
Definition markRequestFailed : M unit :=
  λ w, ({| billing := BillingCycle.markRequestFailed (billing w);
           trace := trace w ++ [MarkRequestFailed];
           writes := writes w |}, inr tt).

Section WithSink.

(** The output stream: [sink k = Some e] when the [k]-th call of
    [stream.writeSSE] (counting from 0) rejects with [e]. *)
Variable sink : nat → option Exn.

(** The clock reading [markResponseComplete] takes. *)
Variable now : Z.

Definition writeSSE (m : SSEMessage) : M unit :=
  λ w, let w1 := {| billing := billing w;
                    trace := trace w ++ [WriteSSE m];
                    writes := S (writes w) |} in
       match sink (writes w) with
       | Some e => (w1, inl e)
       | None => (w1, inr tt)
       end.

(** [Object.hasOwn(response, "choices")], lines 91-93 of either
    handler. *)
Definition isNonStreaming (response : BackendValue) : bool :=
  bool_decide (is_Some (ownProperties response !! "choices")).

(** What the handler hands back to the router. *)
Inductive Reply :=
| Json (body : gmap string string)
    (* [c.json(body)] *)
| EventStream (outcome : Exn + unit).
    (* [streamSSE(c, callback)], with how the callback ended *)

(** [streamSSE(c, callback)]: the callback runs on the open stream. *)
Definition streamSSE (callback : M unit) : M Reply :=
  λ w, let '(w1, r) := callback w in (w1, inr (EventStream r)).

(** *** chat-completions/handler.ts *)

(** Lines 69-72: [for await (const chunk of response)
    await stream.writeSSE(chunk)]. *)
Fixpoint forward (pulls : list Pull) : M unit :=
  match pulls with
  | [] => mret tt
  | Throws e :: _ => throw e
  | Yields chunk :: rest => writeSSE chunk ;; forward rest
  end.

(** Lines 61-88, the callback given to [streamSSE]. *)
Definition streamCompletion (pulls : list Pull) : M unit :=
  tryCatchFinally
    (heartbeatStart ;; forward pulls ;; markResponseComplete now)
    (λ e, markRequestFailed ;; throw e)
    heartbeatStop.

(** Lines 55-88: what [handleCompletion] does with the backend's
    answer. *)
Definition replyCompletion (response : BackendValue) : M Reply :=
  if isNonStreaming response
  then mret (Json (ownProperties response))
  else streamSSE (streamCompletion (items response)).

(** [handleCompletion]: lines 20-53 (rate limit, body parsing, token
    count, approval and the backend call) are collaborators outside
    these sources, taken together as [dispatch]. *)
Definition handleCompletion (dispatch : M BackendValue) : M Reply :=
  response ← dispatch; replyCompletion response.

(** *** messages/handler.ts *)

Section Translated.

(** [ChatCompletionChunk], [AnthropicStreamState], the event type and
    the functions imported from modules outside these sources. *)
Context {Chunk StreamState AnthropicEvent : Type}.
Variable JSON_parse : string → Exn + Chunk.
Variable translateChunkToAnthropicEvents :
  Chunk → StreamState → Exn + (list AnthropicEvent * StreamState).
Variable eventType : AnthropicEvent → string.
Variable JSON_stringify : AnthropicEvent → string.
Variable translateToAnthropic : gmap string string → Exn + gmap string string.
(** The object literal of lines 155-160. *)
Variable streamState0 : StreamState.

Definition liftExn {A} (r : Exn + A) : M A :=
  match r with
  | inl e => throw e
  | inr a => mret a
  end.

(** Lines 180-186. *)
Fixpoint writeEvents (events : list AnthropicEvent) : M unit :=
  match events with
  | [] => mret tt
  | ev :: rest =>
      writeSSE {| event := Some (eventType ev);
                  data := Some (JSON_stringify ev) |} ;;
      writeEvents rest
  end.

(** Lines 167-187: the [for await] loop with its [break] and
    [continue]. *)
Fixpoint pump (st : StreamState) (pulls : list Pull) : M unit :=
  match pulls with
  | [] => mret tt
  | Throws e :: _ => throw e
  | Yields rawEvent :: rest =>
      match data rawEvent with
      | Some d =>
          if String.eqb d "[DONE]" then mret tt
          else if String.eqb d "" then pump st rest
          else
            chunk ← liftExn (JSON_parse d);
            r ← liftExn (translateChunkToAnthropicEvents chunk st);
            writeEvents (fst r) ;;
            pump (snd r) rest
      | None => pump st rest
      end
  end.

(** The message of lines 181-184 for one translated event. *)
Definition eventMessage (ev : AnthropicEvent) : SSEMessage :=
  {| event := Some (eventType ev); data := Some (JSON_stringify ev) |}.

(** The events a run of items is translated to, in order, and the
    translator state after it, when the loop of lines 167-187 gets
    through all of them with a sink that takes every write: no item
    throws, none is the [DONE] sentinel, and every one that carries data
    parses and translates.  [None] otherwise. *)
Fixpoint translateAll (st : StreamState) (pulls : list Pull)
  : option (list AnthropicEvent * StreamState) :=
  match pulls with
  | [] => Some ([], st)
  | Throws _ :: _ => None
  | Yields rawEvent :: rest =>
      match data rawEvent with
      | Some d =>
          if String.eqb d "[DONE]" then None
          else if String.eqb d "" then translateAll st rest
          else
            match JSON_parse d with
            | inl _ => None
            | inr chunk =>
                match translateChunkToAnthropicEvents chunk st with
                | inl _ => None
                | inr (events, st1) =>
                    match translateAll st1 rest with
                    | Some (later, st2) => Some (events ++ later, st2)
                    | None => None
                    end
                end
            end
      | None => translateAll st rest
      end
  end.

(** Lines 153-203, the callback given to [streamSSE]. *)
Definition streamMessages (pulls : list Pull) : M unit :=
  tryCatchFinally
    (heartbeatStart ;; pump streamState0 pulls ;; markResponseComplete now)
    (λ e, markRequestFailed ;; throw e)
    heartbeatStop.

(** Lines 139-203. *)
Definition replyMessages (response : BackendValue) : M Reply :=
  if isNonStreaming response
  then body ← liftExn (translateToAnthropic (ownProperties response));
       mret (Json body)
  else streamSSE (streamMessages (items response)).

(** [handleCompletion] of messages/handler.ts: lines 121-137 (rate
    limit, body parsing, request translation, approval and the backend
    call) are collaborators outside these sources, taken together as
    [dispatch]. *)
Definition handleMessages (dispatch : M BackendValue) : M Reply :=
  response ← dispatch; replyMessages response.

End Translated.

(** *** chat-completions/handler.ts, lines 20-53 *)

(** The fields of the request body and of a model entry that the
    handler reads; [others] stands for the rest of the body. *)
Record ChatCompletionsPayload := mkPayload {
  model : string;
  max_tokens : option Z;
  others : gmap string string
}.

Record ModelInfo := mkModelInfo {
  model_id : string;
  max_output_tokens : option Z
}.

(** Lines 27-29: [state.models?.data.find(m => m.id === payload.model)]. *)
Definition selectModel (models : option (list ModelInfo))
    (payload : ChatCompletionsPayload) : option ModelInfo :=
  models ≫= List.find (λ m, String.eqb (model_id m) (model payload)).

(** Lines 45-51: a missing [max_tokens] ([null] or [undefined]) is
    filled in from the selected model. *)
Definition fillMaxTokens (selected : option ModelInfo)
    (payload : ChatCompletionsPayload) : ChatCompletionsPayload :=
  match max_tokens payload with
  | Some _ => payload
  | None =>
      {| model := model payload;
         max_tokens := selected ≫= max_output_tokens;
         others := others payload |}
  end.

Section Front.

(** The collaborators of lines 20-53, all outside these sources:
    [checkRateLimit(state)], [c.req.json()], [state.models],
    [getTokenCount], [state.manualApprove], [awaitApproval()] and
    [createChatCompletions]. *)
Variable checkRateLimit : M unit.
Variable readBody : M ChatCompletionsPayload.
Variable models : option (list ModelInfo).
Variable getTokenCount : ChatCompletionsPayload → ModelInfo → M Z.
Variable manualApprove : bool.
Variable awaitApproval : M unit.
Variable createChatCompletions : ChatCompletionsPayload → M BackendValue.

(** Lines 32-41: the token count is computed for the log only, inside
    its own [try]/[catch]. *)
Definition countTokens (payload : ChatCompletionsPayload)
    (selected : option ModelInfo) : M unit :=
  tryCatchFinally
    (match selected with
     | Some m => getTokenCount payload m ≫= λ _, mret tt
     | None => mret tt
     end)
    (λ _, mret tt)
    (mret tt).

(** Lines 19-89, the whole of [handleCompletion]. *)
Definition handleCompletionRequest : M Reply :=
  checkRateLimit ;;
  payload ← readBody;
  countTokens payload (selectModel models payload) ;;
  (if manualApprove then awaitApproval else mret tt) ;;
  response ← createChatCompletions
               (fillMaxTokens (selectModel models payload) payload);
  replyCompletion response.

End Front.
End WithSink.

(** The chunks an item sequence yields before it throws or ends. *)
Fixpoint yielded (pulls : list Pull) : list SSEMessage :=
  match pulls with
  | Yields chunk :: rest => chunk :: yielded rest
  | Throws _ :: _ | [] => []
  end.

(** An item the loop of the messages handler does not skip: an error,
    or an event whose [data] is present and not empty. *)
Definition carriesData (p : Pull) : bool :=
  match p with
  | Throws _ => true
  | Yields rawEvent =>
      match data rawEvent with
      | Some d => negb (String.eqb d "")
      | None => false
      end
  end.

(** Number of occurrences of a call in a trace. *)
Definition calls (e : Effect) (t : list Effect) : nat :=
  length (filter (λ x, x = e) t).

Definition emptyWorld (m : BillingCycleManager) : World :=
  {| billing := m; trace := []; writes := 0 |}.

(** The sink takes the first [n] writes. *)
Definition accepts (sink : nat → option Exn) (n : nat) : Prop :=
  ∀ k, k < n → sink k = None.

(** The world after [messages] have been handed to [stream.writeSSE],
    one after the other. *)
Definition wrote (messages : list SSEMessage) (w : World) : World :=
  {| billing := billing w;
     trace := trace w ++ (WriteSSE <$> messages);
     writes := writes w + length messages |}.

(** How a streaming callback that was entered with billing manager [m]
    and no call made yet has ended, after [written] went to the stream:
    with [markResponseComplete] and a normal return, or with
    [markRequestFailed] and [e] thrown; [stop] is the last call either
    way. *)
Definition completedWith (now : Z) (m : BillingCycleManager)
    (written : list SSEMessage) : World * (Exn + unit) :=
  ({| billing := BillingCycle.markResponseComplete now m;
      trace := HeartbeatStart :: (WriteSSE <$> written)
               ++ [MarkResponseComplete; HeartbeatStop];
      writes := length written |}, inr tt).

Definition failedWith (m : BillingCycleManager)
    (written : list SSEMessage) (e : Exn) : World * (Exn + unit) :=
  ({| billing := BillingCycle.markRequestFailed m;
      trace := HeartbeatStart :: (WriteSSE <$> written)
               ++ [MarkRequestFailed; HeartbeatStop];
      writes := length written |}, inl e).

(** A step of a handler that neither touches the billing manager nor
    makes any call but [writeSSE]. *)
Definition writesOnly (step : M unit) : Prop :=
  ∀ w e, (∀ msg, e ≠ WriteSSE msg) →
    billing (fst (step w)) = billing w
    ∧ calls e (trace (fst (step w))) = calls e (trace w).

End Handlers.

(* ===================================================================== *)
(** ** Container entry point (entrypoint.sh) *)
(* ===================================================================== *)

Module Entrypoint.

(** [[ -n "$VAR" ]]: the variable is set and not empty. *)
Definition nonEmpty (v : option string) : bool :=
  match v with
  | Some s => negb (String.eqb s "")
  | None => false
  end.

(** ["$VAR"]: an unset variable expands to the empty string. *)
Definition valueOf (v : option string) : string := default "" v.

(** Lines 7-22: the value of [START_CMD] when line 25 is reached.  Inside
    the double quotes of the assignment of line 21, [$@] is the
    arguments joined by single spaces. *)
Definition START_CMD (GH_TOKEN API_KEY : option string) (args : list string)
  : string :=
  let c0 := "bun run dist/main.js start" in
  let c1 := if nonEmpty GH_TOKEN
            then c0 +:+ " -g " +:+ valueOf GH_TOKEN else c0 in
  let c2 := if nonEmpty API_KEY
            then c1 +:+ " --api-key " +:+ valueOf API_KEY else c1 in
  if bool_decide (0 < length args)%nat
  then c2 +:+ " " +:+ String.concat " " args
  else c2.

(** The characters of the default [IFS]: space, tab, newline. *)
Definition isBlank (c : ascii) : bool :=
  match c with
  | " "%char | "009"%char | "010"%char => true
  | _ => false
  end.

(** Field splitting of an unquoted expansion under the default [IFS]:
    the maximal runs of characters that are not blank; [word] is the run
    read so far. *)
Fixpoint fields (word : string) (s : string) : list string :=
  match s with
  | EmptyString => if String.eqb word "" then [] else [word]
  | String c rest =>
      if isBlank c
      then (if String.eqb word "" then fields "" rest
            else word :: fields "" rest)
      else fields (word +:+ String c "") rest
  end.

(** The argument vector the script hands to [exec]: line 4 when the
    first argument is [--auth], else the fields of [$START_CMD] (line
    25).  Pathname expansion, which the shell applies to a field that
    contains [*], [?] or [[], is not part of this model. *)
Definition entrypoint (GH_TOKEN API_KEY : option string) (args : list string)
  : list string :=
  if String.eqb (default "" (head args)) "--auth"
  then ["bun"; "run"; "dist/main.js"; "auth"]
  else fields "" (START_CMD GH_TOKEN API_KEY args).

Fixpoint allChars (p : ascii → bool) (s : string) : bool :=
  match s with
  | EmptyString => true
  | String c rest => p c && allChars p rest
  end.

(** A character field splitting and pathname expansion leave alone. *)
Definition isPlain (c : ascii) : bool :=
  negb (isBlank c)
  && negb (Ascii.eqb c "*") && negb (Ascii.eqb c "?")
  && negb (Ascii.eqb c "[").

(** A word the shell passes on as it is: not empty and made of plain
    characters. *)
Definition plainWord (s : string) : bool :=
  negb (String.eqb s "") && allChars isPlain s.

(** A variable that is unset, empty, or holds a plain word. *)
Definition plainSetting (v : option string) : bool :=
  match v with
  | Some s => String.eqb s "" || plainWord s
  | None => true
  end.

End Entrypoint.

(* ===================================================================== *)
(** * Properties *)
(* ===================================================================== *)

Section BillingCycleFacts.
Import BillingCycle.

Lemma performAll_snoc (cs : list Call) (c : Call) (m : BillingCycleManager) :
  performAll (cs ++ [c]) m = perform (performAll cs m) c.
Proof. unfold performAll. by rewrite foldl_snoc. Qed.

Lemma perform_pending_nonneg (m : BillingCycleManager) (c : Call) :
  0 ≤ pendingResponses m → 0 ≤ pendingResponses (perform m c).
Proof.
  intros Hm. destruct c as [now|now| |]; simpl.
  - unfold determineInitiator, expireIfTimedOut.
    destruct (timedOut now m); simpl;
      destruct (inCycle m); simpl; lia.
  - lia.
  - lia.
  - lia.
Qed.

Lemma performAll_pending_nonneg (cs : list Call) (m : BillingCycleManager) :
  0 ≤ pendingResponses m → 0 ≤ pendingResponses (performAll cs m).
Proof.
  intros Hm. induction cs as [|c cs IH] using rev_ind; [done|].
  rewrite performAll_snoc. by apply perform_pending_nonneg.
Qed.

Lemma timedOut_spec (now : Z) (m : BillingCycleManager) :
  timedOut now m = true ↔
  inCycle m = true ∧ pendingResponses m = 0
  ∧ now - lastResponseTime m > CYCLE_TIMEOUT_MS.
Proof.
  unfold timedOut. rewrite !andb_true_iff, Z.eqb_eq, Z.gtb_gt. tauto.
Qed.

Lemma expire_changes_only_when_timedOut (now : Z) (m : BillingCycleManager) :
  inCycle m = true → inCycle (expireIfTimedOut now m) = false →
  timedOut now m = true.
Proof.
  unfold expireIfTimedOut. destruct (timedOut now m); [done|congruence].
Qed.

(** After [determineInitiator] the cycle is open. *)
Lemma determineInitiator_opens (now : Z) (m : BillingCycleManager) :
  inCycle (snd (determineInitiator now m)) = true.
Proof.
  unfold determineInitiator.
  destruct (inCycle (expireIfTimedOut now m)) eqn:E; simpl; done.
Qed.

(** The verdict is [User] exactly when the cycle is closed once the
    timeout check has run. *)
Lemma determineInitiator_verdict (now : Z) (m : BillingCycleManager) :
  fst (determineInitiator now m)
  = if inCycle (expireIfTimedOut now m) then Agent else User.
Proof.
  unfold determineInitiator.
  by destruct (inCycle (expireIfTimedOut now m)).
Qed.

(** C8. Whatever calls of [determineInitiator], [markResponseComplete],
    [markRequestFailed] and [reset] are made from the initial idle state,
    [pendingResponses] is not negative; and when the timeout check of
    [determineInitiator] turns an open cycle into a closed one, it does
    so in a state whose [pendingResponses] is 0. *)
Theorem pending_never_negative_expiry_only_when_none_pending
    (cs : list Call) (now : Z) :
  let m := performAll cs initial in
  0 ≤ pendingResponses m
  ∧ (inCycle m = true → inCycle (expireIfTimedOut now m) = false →
     pendingResponses m = 0).
Proof.
  intros m. split.
  - by apply performAll_pending_nonneg.
  - intros Hin Hout.
    by apply (expire_changes_only_when_timedOut now m Hin), timedOut_spec in Hout
      as (_ & ? & _).
Qed.

Lemma pending_never_negative_expiry_only_when_none_pending_witness :
  let m := performAll [CallDetermine 0; CallComplete 1] initial in
  0 ≤ pendingResponses m
  ∧ inCycle m = true
  ∧ inCycle (expireIfTimedOut 400000 m) = false
  ∧ pendingResponses m = 0.
Proof.
  pose proof (pending_never_negative_expiry_only_when_none_pending
                [CallDetermine 0; CallComplete 1] 400000) as [H1 H2].
  split; [exact H1|].
  split; [reflexivity|].
  split; [reflexivity|].
  apply H2; reflexivity.
Defined.

(** C3 read as stated fails at the boundary: when exactly five minutes
    have elapsed since the last response, with nothing pending, the cycle
    has not expired and the verdict is [Agent]. *)
Lemma no_expiry_at_exactly_five_minutes :
  let m := markResponseComplete 1000 (snd (determineInitiator 0 initial)) in
  fst (determineInitiator 0 initial) = User
  ∧ pendingResponses m = 0
  ∧ 301000 - lastResponseTime m = 5 * 60 * 1000
  ∧ fst (determineInitiator 301000 m) = Agent.
Proof. repeat split. Qed.

(** C3, as the code has it.  After a [User] verdict followed by
    [markResponseComplete] at time [t], a call made no later than five
    minutes after [t] returns [Agent].  In any state with nothing
    pending, a call made more than five minutes after the last response
    returns [User].  The timeout check does nothing while a response is
    pending, and [markResponseComplete] leaves [inCycle] as it is. *)
Theorem agent_within_timeout_user_after_timeout
    (m : BillingCycleManager) (t0 t now : Z) :
  (fst (determineInitiator t0 m) = User →
   now - t ≤ CYCLE_TIMEOUT_MS →
   fst (determineInitiator now
          (markResponseComplete t (snd (determineInitiator t0 m)))) = Agent)
  ∧ (pendingResponses m = 0 →
     now - lastResponseTime m > CYCLE_TIMEOUT_MS →
     fst (determineInitiator now m) = User)
  ∧ (pendingResponses m ≠ 0 → expireIfTimedOut now m = m)
  ∧ inCycle (markResponseComplete t m) = inCycle m.
Proof.
  repeat split.
  - intros _ Hle. rewrite determineInitiator_verdict.
    unfold expireIfTimedOut.
    destruct (timedOut _ _) eqn:E.
    + apply timedOut_spec in E as (_ & _ & E). simpl in E. lia.
    + simpl. by rewrite determineInitiator_opens.
  - intros Hp Hgt. rewrite determineInitiator_verdict.
    unfold expireIfTimedOut.
    destruct (timedOut now m) eqn:E; [done|].
    destruct (inCycle m) eqn:Hin; [|done].
    assert (timedOut now m = true); [|congruence].
    by apply timedOut_spec.
  - intros Hp. unfold expireIfTimedOut.
    destruct (timedOut now m) eqn:E; [|done].
    by apply timedOut_spec in E as (_ & ? & _).
Qed.

Lemma agent_within_timeout_user_after_timeout_witness :
  fst (determineInitiator 301000
         (markResponseComplete 1000 (snd (determineInitiator 0 initial))))
  = Agent
  ∧ fst (determineInitiator 301001
           (markResponseComplete 1000 (snd (determineInitiator 0 initial))))
    = User
  ∧ expireIfTimedOut 999999 (snd (determineInitiator 0 initial))
    = snd (determineInitiator 0 initial).
Proof.
  split; [|split].
  - apply (agent_within_timeout_user_after_timeout initial 0 1000 301000);
      [reflexivity | vm_compute; discriminate].
  - apply (agent_within_timeout_user_after_timeout
             (markResponseComplete 1000 (snd (determineInitiator 0 initial)))
             0 0 301001); reflexivity.
  - apply (agent_within_timeout_user_after_timeout
             (snd (determineInitiator 0 initial)) 0 0 999999).
    vm_compute; discriminate.
Defined.

(** C2 read as stated fails at three inputs.  With a second request in
    flight, the failure of the first (billed) request before any
    completion leaves the cycle open and the next verdict is [Agent].
    After a completed request, a follow-up that fails late is followed
    by a [User] verdict once five minutes have passed since the
    completion.  And in a cycle that was opened by expiry of an earlier
    one, the failure of the first request, alone in flight and before any
    completion in that cycle, leaves [inCycle] set. *)
Lemma failed_first_request_counterexample :
  (let m1 := snd (determineInitiator 1 initial) in
   let m2 := snd (determineInitiator 2 m1) in
   let m3 := markRequestFailed m2 in
   fst (determineInitiator 1 initial) = User
   ∧ lastResponseTime m3 = 0
   ∧ inCycle m3 = true
   ∧ fst (determineInitiator 3 m3) = Agent)
  ∧ (let m1 := markResponseComplete 1000 (snd (determineInitiator 0 initial)) in
     let m2 := snd (determineInitiator 2000 m1) in
     let m3 := markRequestFailed m2 in
     fst (determineInitiator 2000 m1) = Agent
     ∧ inCycle m3 = true
     ∧ fst (determineInitiator 400000 m3) = User)
  ∧ (let m1 := markResponseComplete 1000 (snd (determineInitiator 0 initial)) in
     let m2 := snd (determineInitiator 400000 m1) in
     let m3 := markRequestFailed m2 in
     fst (determineInitiator 400000 m1) = User
     ∧ lastResponseTime m2 = lastResponseTime m1
     ∧ pendingResponses m3 = 0
     ∧ inCycle m3 = true).
Proof. repeat split. Qed.

(** C2, as the code has it.  When [markRequestFailed] is called while no
    response has completed since start or reset ([lastResponseTime] is
    0) and no other request is in flight ([pendingResponses] at most
    1), the cycle is closed and the next verdict is [User].  When it is
    called in an open cycle after a response has completed
    ([lastResponseTime] not 0), the cycle stays open, and the next
    verdict is [Agent] if a request is still pending or no more than
    five minutes have passed since the last completion.  When no other
    request is in flight and more than five minutes have passed since
    the last completion, the next verdict is [User] whether or not the
    flag was cleared. *)
Theorem markRequestFailed_closes_only_unanswered_idle_cycle
    (m : BillingCycleManager) (now : Z) :
  let m' := markRequestFailed m in
  (lastResponseTime m = 0 → pendingResponses m ≤ 1 →
   inCycle m' = false ∧ fst (determineInitiator now m') = User)
  ∧ (inCycle m = true → lastResponseTime m ≠ 0 →
     inCycle m' = true
     ∧ (pendingResponses m' ≠ 0 ∨ now - lastResponseTime m' ≤ CYCLE_TIMEOUT_MS →
        fst (determineInitiator now m') = Agent))
  ∧ (pendingResponses m ≤ 1 →
     now - lastResponseTime m > CYCLE_TIMEOUT_MS →
     fst (determineInitiator now m') = User).
Proof.
  intros m'. split; [|split].
  - intros Hl Hp.
    assert (Hc : inCycle m' = false).
    { unfold m', markRequestFailed. simpl.
      replace (Z.max 0 (pendingResponses m - 1)) with 0 by lia.
      rewrite Hl. done. }
    split; [done|].
    rewrite determineInitiator_verdict. unfold expireIfTimedOut.
    destruct (timedOut now m'); [done | by rewrite Hc].
  - intros Hin Hl.
    assert (Hc : inCycle m' = true).
    { unfold m', markRequestFailed. simpl.
      apply Z.eqb_neq in Hl. rewrite Hl, andb_false_r. done. }
    split; [done|].
    intros Hor. rewrite determineInitiator_verdict. unfold expireIfTimedOut.
    destruct (timedOut now m') eqn:E; [|by rewrite Hc].
    apply timedOut_spec in E as (_ & E1 & E2). lia.
  - intros Hp Hgt.
    assert (Hp' : pendingResponses m' = 0) by (unfold m'; simpl; lia).
    rewrite determineInitiator_verdict. unfold expireIfTimedOut.
    destruct (timedOut now m') eqn:E; [done|].
    destruct (inCycle m') eqn:Hin; [|done].
    assert (timedOut now m' = true); [|congruence].
    apply timedOut_spec. by repeat split.
Qed.

Lemma markRequestFailed_closes_only_unanswered_idle_cycle_witness :
  (let m' := markRequestFailed (snd (determineInitiator 1 initial)) in
   inCycle m' = false ∧ fst (determineInitiator 2 m') = User)
  ∧ (let m' := markRequestFailed
                 (snd (determineInitiator 2000
                    (markResponseComplete 1000
                       (snd (determineInitiator 0 initial))))) in
     inCycle m' = true ∧ fst (determineInitiator 3000 m') = Agent)
  ∧ (let m' := markRequestFailed
                 (snd (determineInitiator 400000
                    (markResponseComplete 1000
                       (snd (determineInitiator 0 initial))))) in
     fst (determineInitiator 400001 m') = User).
Proof.
  split; [|split].
  - apply (markRequestFailed_closes_only_unanswered_idle_cycle
             (snd (determineInitiator 1 initial)) 2);
      [reflexivity | vm_compute; discriminate].
  - destruct (markRequestFailed_closes_only_unanswered_idle_cycle
                (snd (determineInitiator 2000
                   (markResponseComplete 1000
                      (snd (determineInitiator 0 initial))))) 3000)
      as (_ & H & _).
    destruct H as [H1 H2].
    { reflexivity. }
    { vm_compute; discriminate. }
    split; [exact H1|].
    apply H2. right. vm_compute; discriminate.
  - apply (markRequestFailed_closes_only_unanswered_idle_cycle
             (snd (determineInitiator 400000
                (markResponseComplete 1000
                   (snd (determineInitiator 0 initial))))) 400001);
      [vm_compute; discriminate | reflexivity].
Defined.

(** The sequential cases of tests/billing-cycle.test.ts. *)
Example billing_cycle_tests :
  let first := determineInitiator 10 initial in
  let second := determineInitiator 30 (markResponseComplete 20 (snd first)) in
  fst first = User
  ∧ snd first
    = {| inCycle := true; lastResponseTime := 0; pendingResponses := 1 |}
  ∧ fst second = Agent
  ∧ fst (determineInitiator 30 (markRequestFailed (snd first))) = User
  ∧ fst (determineInitiator 50 (markRequestFailed (snd second))) = Agent
  ∧ fst (determineInitiator 50 (reset (snd second))) = User.
Proof. repeat split. Qed.

End BillingCycleFacts.

Section ApiKeyAuthFacts.
Import ApiKeyAuth.

Lemma truthy_Some (s : string) : truthy (Some s) = true ↔ s ≠ "".
Proof.
  simpl. rewrite negb_true_iff. split.
  - intros H. by apply String.eqb_neq.
  - intros H. by apply String.eqb_neq.
Qed.

Lemma substring_whole (s : string) :
  String.substring 0 (String.length s) s = s.
Proof. induction s as [|c s IH]; simpl; [done | by rewrite IH]. Qed.

(** [("Bearer " + token).slice(7)] is [token]. *)
Lemma slice_bearer (token : string) :
  slice 7 (String.append "Bearer " token) = token.
Proof.
  unfold slice. simpl. rewrite Nat.sub_0_r. apply substring_whole.
Qed.

(** C10. With an API key configured, a request whose [Authorization]
    header starts with ["Bearer "] is admitted exactly when the rest of
    that header equals the configured key, whatever [X-API-Key] holds,
    and is otherwise rejected with status 401; a request without such a
    header is admitted exactly when [X-API-Key] equals the configured
    key. *)
Theorem bearer_token_decides_before_x_api_key
    (key : string) (req : Request) :
  key ≠ "" →
  (optStartsWith "Bearer " (Authorization req) = true →
   apiKeyAuth (Some key) req
   = if bool_decide (slice 7 <$> Authorization req = Some key)
     then Next else HTTPException 401 "Invalid or missing API key")
  ∧ (optStartsWith "Bearer " (Authorization req) = false →
     apiKeyAuth (Some key) req
     = if bool_decide (X_API_Key req = Some key)
       then Next else HTTPException 401 "Invalid or missing API key").
Proof.
  intros Hkey.
  assert (Hk : truthy (Some key) = true) by by apply truthy_Some.
  unfold apiKeyAuth, providedKey. rewrite Hk. simpl negb. cbv iota.
  split; intros Hb; rewrite Hb.
  - destruct (Authorization req) as [a|]; [|done]. simpl fmap.
    case_bool_decide as E.
    + inversion E as [E']. rewrite E', Hk. done.
    + simpl negb. by rewrite orb_true_r.
  - destruct (truthy (X_API_Key req)) eqn:Hx.
    + rewrite Hx. simpl. by destruct (bool_decide (X_API_Key req = Some key)).
    + simpl. rewrite bool_decide_false; [done|].
      intros E. rewrite E in Hx. congruence.
Qed.

Lemma bearer_token_decides_before_x_api_key_witness :
  apiKeyAuth (Some "secret")
    {| Authorization := Some "Bearer wrong"; X_API_Key := Some "secret" |}
  = HTTPException 401 "Invalid or missing API key"
  ∧ apiKeyAuth (Some "secret")
      {| Authorization := Some "Bearer secret"; X_API_Key := None |}
    = Next
  ∧ apiKeyAuth (Some "secret")
      {| Authorization := Some "Basic abc"; X_API_Key := Some "secret" |}
    = Next.
Proof.
  split; [|split].
  - apply (bearer_token_decides_before_x_api_key "secret"
             {| Authorization := Some "Bearer wrong";
                X_API_Key := Some "secret" |});
      [discriminate | reflexivity].
  - apply (bearer_token_decides_before_x_api_key "secret"
             {| Authorization := Some "Bearer secret"; X_API_Key := None |});
      [discriminate | reflexivity].
  - apply (bearer_token_decides_before_x_api_key "secret"
             {| Authorization := Some "Basic abc";
                X_API_Key := Some "secret" |});
      [discriminate | reflexivity].
Defined.

End ApiKeyAuthFacts.

Section HeartbeatFacts.
Import Heartbeat.

Lemma tick_without_cap (ok : bool) (now : Z) (h : SSEHeartbeatManager) :
  maxConnectionDuration (config h) = 0 →
  timer (fst (tick ok now h)) = timer h
  ∧ config (fst (tick ok now h)) = config h
  ∧ (OnMaxDuration ∉ snd (tick ok now h))
  ∧ (TimerCleared ∉ snd (tick ok now h)).
Proof.
  intros H0. unfold tick. simpl. rewrite H0. simpl.
  destruct ok; simpl; repeat split;
    (apply not_elem_of_cons; split; [discriminate | apply not_elem_of_nil]).
Qed.

(** A session whose configured maximum duration is 0 is never cut: no
    tick calls [onMaxDuration] or clears the timer. *)
Lemma session_without_cap (ts : list (bool * Z)) (h : SSEHeartbeatManager) :
  maxConnectionDuration (config h) = 0 →
  timer (fst (session ts h)) = timer h
  ∧ (OnMaxDuration ∉ snd (session ts h))
  ∧ (TimerCleared ∉ snd (session ts h)).
Proof.
  revert h. induction ts as [|t ts IH]; intros h H0.
  - simpl. repeat split; apply not_elem_of_nil.
  - simpl. unfold fire. destruct (timer h) eqn:Ht.
    + destruct (tick_without_cap (fst t) (snd t) h H0) as (T1 & T2 & T3 & T4).
      destruct (tick (fst t) (snd t) h) as [h1 a1]. simpl in *.
      destruct (IH h1) as (I1 & I2 & I3); [by rewrite T2|].
      destruct (session ts h1) as [h2 a2]. simpl in *.
      rewrite I1, T1, Ht. repeat split; by apply not_elem_of_app.
    + destruct (IH h H0) as (I1 & I2 & I3).
      destruct (session ts h) as [h2 a2]. simpl in *.
      repeat split; [congruence|done|done].
Qed.

(** A configuration object that sets the maximum duration to 0 gives a
    session without cap. *)
Lemma explicit_zero_disables_cap (env : Env) (c : PartialConfig) :
  maxConnectionDuration' c = Some 0 →
  maxConnectionDuration (config (createHeartbeatManager env c)) = 0.
Proof. intros H. simpl. by rewrite H. Qed.

(** C9, at the environment variable.  With
    [SSE_MAX_CONNECTION_DURATION=0] the default configuration has the
    cap at 600000 ms, and a session the handlers create from it is cut by
    the first tick after that time: the timer is cleared and
    [onMaxDuration] is called. *)
Theorem zero_in_environment_does_not_disable_cap :
  let env := {| SSE_HEARTBEAT_INTERVAL := None;
                SSE_HEARTBEAT_ENABLED := None;
                SSE_MAX_CONNECTION_DURATION := Some "0" |} in
  let h := start 0 (createHeartbeatManager env noOverride) in
  Number (SSE_MAX_CONNECTION_DURATION env) = Num 0
  ∧ maxConnectionDuration (DEFAULT_HEARTBEAT_CONFIG env) = 600000
  ∧ timer h = true
  ∧ timer (fst (session [(true, 600001)] h)) = false
  ∧ snd (session [(true, 600001)] h)
    = [Wrote heartbeatFrame; TimerCleared; OnMaxDuration].
Proof. repeat split. Qed.

(** The heartbeat scenario of the specification's section 8: interval
    50 ms, cap 120 ms.  The tick at 150 ms is the first past the cap; it
    clears the timer and calls [onMaxDuration], later firings do nothing,
    and [stop] afterwards has no effect. *)
Example heartbeat_scenario :
  let env := {| SSE_HEARTBEAT_INTERVAL := None;
                SSE_HEARTBEAT_ENABLED := None;
                SSE_MAX_CONNECTION_DURATION := None |} in
  let h := start 0 (createHeartbeatManager env
                      {| interval' := Some 50; enabled' := None;
                         maxConnectionDuration' := Some 120 |}) in
  let h' := fst (session [(true, 50); (true, 100); (true, 150); (true, 200)] h) in
  snd (session [(true, 50); (true, 100); (true, 150); (true, 200)] h)
  = [Wrote heartbeatFrame; Wrote heartbeatFrame; Wrote heartbeatFrame;
     TimerCleared; OnMaxDuration]
  ∧ heartbeatCount h' = 3
  ∧ stop h' = (h', [])
  ∧ stop (fst (stop h')) = (h', []).
Proof. repeat split. Qed.

End HeartbeatFacts.

Section HandlerFacts.
Import Handlers.

Variable sink : nat → option Exn.
Variable now : Z.

Lemma calls_snoc (e x : Effect) (t : list Effect) :
  calls e (t ++ [x]) = (calls e t + if decide (x = e) then 1 else 0)%nat.
Proof.
  unfold calls. rewrite filter_app, length_app. f_equal.
  rewrite filter_cons, filter_nil. by destruct (decide (x = e)).
Qed.

Lemma last_record (e : Effect) (w : World) :
  last (trace (record e w)) = Some e.
Proof. simpl. apply last_snoc. Qed.

Lemma writeSSE_writesOnly (msg : SSEMessage) : writesOnly (writeSSE sink msg).
Proof.
  intros w e He. unfold writeSSE.
  destruct (sink (writes w)); simpl; rewrite calls_snoc;
    (destruct (decide (WriteSSE msg = e)) as [E|_];
     [by destruct (He msg) | split; [done | lia]]).
Qed.

Lemma mret_writesOnly : writesOnly (mret tt).
Proof. by intros w e _. Qed.

Lemma throw_writesOnly (x : Exn) : writesOnly (throw x).
Proof. by intros w e _. Qed.

Lemma bind_writesOnly {A} (m : M A) (k : A → M unit) :
  (∀ w e, (∀ msg, e ≠ WriteSSE msg) →
     billing (fst (m w)) = billing w
     ∧ calls e (trace (fst (m w))) = calls e (trace w)) →
  (∀ a, writesOnly (k a)) →
  writesOnly (m ≫= k).
Proof.
  intros Hm Hk w e He. unfold mbind, M_bind.
  destruct (Hm w e He) as [B1 C1].
  destruct (m w) as [w1 [x|a]]; simpl in *; [done|].
  destruct (Hk a w1 e He) as [B2 C2].
  split; congruence.
Qed.

Lemma forward_writesOnly (pulls : list Pull) : writesOnly (forward sink pulls).
Proof.
  induction pulls as [|[chunk|x] rest IH]; simpl.
  - apply mret_writesOnly.
  - apply bind_writesOnly; [apply writeSSE_writesOnly | done].
  - apply throw_writesOnly.
Qed.

(** The shape of the callbacks of both handlers: the loop inside
    [try], the billing hooks, and [stop] in [finally]. *)
Lemma callback_outcome (loop : M unit) (m : BillingCycle.BillingCycleManager) :
  writesOnly loop →
  let start := record HeartbeatStart (emptyWorld m) in
  let '(w, r) :=
    tryCatchFinally
      (heartbeatStart ;; loop ;; markResponseComplete now)
      (λ e, markRequestFailed ;; throw e)
      heartbeatStop (emptyWorld m) in
  r = snd (loop start)
  ∧ match r with
    | inr _ =>
        calls MarkResponseComplete (trace w) = 1%nat
        ∧ calls MarkRequestFailed (trace w) = 0%nat
        ∧ billing w = BillingCycle.markResponseComplete now m
    | inl _ =>
        calls MarkRequestFailed (trace w) = 1%nat
        ∧ calls MarkResponseComplete (trace w) = 0%nat
        ∧ billing w = BillingCycle.markRequestFailed m
    end
  ∧ calls HeartbeatStop (trace w) = 1%nat
  ∧ last (trace w) = Some HeartbeatStop.
Proof.
  intros Hloop start.
  unfold tryCatchFinally, mbind, M_bind, heartbeatStart.
  fold start.
  destruct (Hloop start MarkResponseComplete) as [B C1]; [done|].
  destruct (Hloop start MarkRequestFailed) as [_ C2]; [done|].
  destruct (Hloop start HeartbeatStop) as [_ C3]; [done|].
  destruct (loop start) as [w1 [x|[]]]; simpl in *.
  - rewrite !calls_snoc, C1, C2, C3, B, last_snoc. by repeat split.
  - rewrite !calls_snoc, C1, C2, C3, B, last_snoc. by repeat split.
Qed.

(** *** What the stream does decides how the loop ends *)

Local Open Scope nat_scope.

Lemma wrote_nil (w : World) : wrote [] w = w.
Proof.
  destruct w as [b t n]. unfold wrote. simpl.
  by rewrite app_nil_r, Nat.add_0_r.
Qed.

Lemma wrote_app (a b : list SSEMessage) (w : World) :
  wrote b (wrote a w) = wrote (a ++ b) w.
Proof.
  unfold wrote. simpl.
  by rewrite fmap_app, app_assoc, length_app, Nat.add_assoc.
Qed.

Lemma writeSSE_wrote (msg : SSEMessage) (w : World) :
  writeSSE sink msg w
  = (wrote [msg] w,
     match sink (writes w) with Some e => inl e | None => inr tt end).
Proof.
  unfold writeSSE, wrote. simpl. rewrite Nat.add_1_r.
  by destruct (sink (writes w)).
Qed.

Lemma forward_accepted (chunks : list SSEMessage) (rest : list Pull)
    (w : World) :
  (∀ k, k < length chunks → sink (writes w + k) = None) →
  forward sink ((Yields <$> chunks) ++ rest) w
  = forward sink rest (wrote chunks w).
Proof.
  revert w. induction chunks as [|c chunks IH]; intros w H.
  - by rewrite wrote_nil.
  - cbn [fmap list_fmap app forward]. unfold mbind, M_bind.
    rewrite writeSSE_wrote.
    rewrite <- (Nat.add_0_r (writes w)) at 1.
    rewrite (H 0) by (simpl; lia).
    rewrite IH.
    + by rewrite wrote_app.
    + intros k Hk. simpl.
      replace (writes w + 1 + k) with (writes w + S k) by lia.
      apply H. simpl. lia.
Qed.

Lemma forward_rejected (chunks : list SSEMessage) (c : SSEMessage)
    (e : Exn) (rest : list Pull) (w : World) :
  (∀ k, k < length chunks → sink (writes w + k) = None) →
  sink (writes w + length chunks) = Some e →
  forward sink ((Yields <$> chunks) ++ Yields c :: rest) w
  = (wrote (chunks ++ [c]) w, inl e).
Proof.
  intros H He. rewrite forward_accepted by done.
  cbn [forward]. unfold mbind, M_bind. rewrite writeSSE_wrote.
  cbn [wrote writes]. rewrite He. by rewrite wrote_app.
Qed.

(** The callback of either handler around a loop that ended after
    [written] went to the stream. *)
Lemma callback_completed (loop : M unit) (m : BillingCycle.BillingCycleManager)
    (written : list SSEMessage) :
  loop (record HeartbeatStart (emptyWorld m))
  = (wrote written (record HeartbeatStart (emptyWorld m)), inr tt) →
  tryCatchFinally
    (heartbeatStart ;; loop ;; markResponseComplete now)
    (λ e, markRequestFailed ;; throw e)
    heartbeatStop (emptyWorld m)
  = completedWith now m written.
Proof.
  intros H. unfold tryCatchFinally, mbind, M_bind, heartbeatStart.
  rewrite H. unfold completedWith, heartbeatStop, record. simpl.
  by rewrite <- app_assoc.
Qed.

Lemma callback_failed (loop : M unit) (m : BillingCycle.BillingCycleManager)
    (written : list SSEMessage) (e : Exn) :
  loop (record HeartbeatStart (emptyWorld m))
  = (wrote written (record HeartbeatStart (emptyWorld m)), inl e) →
  tryCatchFinally
    (heartbeatStart ;; loop ;; markResponseComplete now)
    (λ e, markRequestFailed ;; throw e)
    heartbeatStop (emptyWorld m)
  = failedWith m written e.
Proof.
  intros H. unfold tryCatchFinally, mbind, M_bind, heartbeatStart.
  rewrite H. unfold failedWith, heartbeatStop, record. simpl.
  by rewrite <- app_assoc.
Qed.

Section TranslatedFacts.
Context {Chunk StreamState AnthropicEvent : Type}.
Variable JSON_parse : string → Exn + Chunk.
Variable translateChunkToAnthropicEvents :
  Chunk → StreamState → Exn + (list AnthropicEvent * StreamState).
Variable eventType : AnthropicEvent → string.
Variable JSON_stringify : AnthropicEvent → string.
Variable translateToAnthropic : gmap string string → Exn + gmap string string.
Variable streamState0 : StreamState.

Lemma liftExn_writesOnly {A} (r : Exn + A) :
  ∀ w e, (∀ msg, e ≠ WriteSSE msg) →
    billing (fst (liftExn r w)) = billing w
    ∧ calls e (trace (fst (liftExn r w))) = calls e (trace w).
Proof. by destruct r. Qed.

Lemma writeEvents_writesOnly (events : list AnthropicEvent) :
  writesOnly (writeEvents sink eventType JSON_stringify events).
Proof.
  induction events as [|ev rest IH]; simpl.
  - apply mret_writesOnly.
  - apply bind_writesOnly; [apply writeSSE_writesOnly | done].
Qed.

Lemma pump_writesOnly (st : StreamState) (pulls : list Pull) :
  writesOnly (pump sink JSON_parse translateChunkToAnthropicEvents
                eventType JSON_stringify st pulls).
Proof.
  revert st. induction pulls as [|[rawEvent|x] rest IH]; intros st; simpl.
  - apply mret_writesOnly.
  - destruct (data rawEvent) as [d|]; [|apply IH].
    destruct (String.eqb d "[DONE]"); [apply mret_writesOnly|].
    destruct (String.eqb d ""); [apply IH|].
    apply bind_writesOnly; [apply liftExn_writesOnly|]. intros chunk.
    apply bind_writesOnly; [apply liftExn_writesOnly|]. intros r.
    apply bind_writesOnly; [apply writeEvents_writesOnly|]. intros _.
    apply IH.
  - apply throw_writesOnly.
Qed.

Lemma writeEvents_accepted (events : list AnthropicEvent) (w : World) :
  (∀ k, k < length events → sink (writes w + k) = None) →
  writeEvents sink eventType JSON_stringify events w
  = (wrote (eventMessage eventType JSON_stringify <$> events) w, inr tt).
Proof.
  revert w. induction events as [|ev events IH]; intros w H.
  - by rewrite wrote_nil.
  - cbn [writeEvents fmap list_fmap]. unfold mbind, M_bind.
    rewrite writeSSE_wrote.
    rewrite <- (Nat.add_0_r (writes w)) at 1.
    rewrite (H 0) by (simpl; lia).
    rewrite IH.
    + by rewrite wrote_app.
    + intros k Hk. simpl.
      replace (writes w + 1 + k) with (writes w + S k) by lia.
      apply H. simpl. lia.
Qed.

Lemma writeEvents_rejected (events : list AnthropicEvent) (n : nat)
    (e : Exn) (w : World) :
  n < length events →
  (∀ k, k < n → sink (writes w + k) = None) →
  sink (writes w + n) = Some e →
  writeEvents sink eventType JSON_stringify events w
  = (wrote (eventMessage eventType JSON_stringify <$> take (S n) events) w,
     inl e).
Proof.
  revert n w. induction events as [|ev events IH]; intros n w Hn H He.
  - simpl in Hn. lia.
  - cbn [writeEvents]. unfold mbind, M_bind. rewrite writeSSE_wrote.
    destruct n as [|n].
    + rewrite Nat.add_0_r in He. by rewrite He.
    + rewrite <- (Nat.add_0_r (writes w)) at 1.
      rewrite (H 0) by lia.
      rewrite (IH n).
      * by rewrite wrote_app.
      * simpl in Hn. lia.
      * intros k Hk. simpl.
        replace (writes w + 1 + k) with (writes w + S k) by lia.
        apply H. lia.
      * simpl. by replace (writes w + 1 + n) with (writes w + S n) by lia.
Qed.

Lemma pump_translated (pulls rest : list Pull) (st st1 : StreamState)
    (events : list AnthropicEvent) (w : World) :
  translateAll JSON_parse translateChunkToAnthropicEvents st pulls
  = Some (events, st1) →
  (∀ k, k < length events → sink (writes w + k) = None) →
  pump sink JSON_parse translateChunkToAnthropicEvents eventType
    JSON_stringify st (pulls ++ rest) w
  = pump sink JSON_parse translateChunkToAnthropicEvents eventType
      JSON_stringify st1 rest
      (wrote (eventMessage eventType JSON_stringify <$> events) w).
Proof.
  revert st events w.
  induction pulls as [|[rawEvent|x] pulls IH]; intros st events w T H.
  - simpl in T. inversion T. subst. by rewrite wrote_nil.
  - cbn [translateAll] in T. cbn [app pump].
    destruct (data rawEvent) as [d|]; [|by apply IH].
    destruct (String.eqb d "[DONE]"); [done|].
    destruct (String.eqb d ""); [by apply IH|].
    destruct (JSON_parse d) as [?|chunk] eqn:Hp; [done|].
    destruct (translateChunkToAnthropicEvents chunk st)
      as [?|[evs st2]] eqn:Ht; [done|].
    destruct (translateAll JSON_parse translateChunkToAnthropicEvents
                st2 pulls) as [[later st3]|] eqn:T2; [|done].
    inversion T. subst. clear T.
    rewrite length_app in H.
    unfold mbind, M_bind. cbn [liftExn mret M_ret].
    rewrite Ht. cbn [liftExn mret M_ret fst snd].
    rewrite writeEvents_accepted by (intros k Hk; apply H; lia).
    rewrite (IH st2 later); [by rewrite wrote_app, fmap_app | done |].
    intros k Hk. simpl. rewrite length_fmap, <- Nat.add_assoc.
    apply H. lia.
  - done.
Qed.

Lemma pump_rejected (pulls rest : list Pull) (st st1 : StreamState)
    (events : list AnthropicEvent) (n : nat) (e : Exn) (w : World) :
  translateAll JSON_parse translateChunkToAnthropicEvents st pulls
  = Some (events, st1) →
  n < length events →
  (∀ k, k < n → sink (writes w + k) = None) →
  sink (writes w + n) = Some e →
  pump sink JSON_parse translateChunkToAnthropicEvents eventType
    JSON_stringify st (pulls ++ rest) w
  = (wrote (eventMessage eventType JSON_stringify <$> take (S n) events) w,
     inl e).
Proof.
  revert st events n w.
  induction pulls as [|[rawEvent|x] pulls IH]; intros st events n w T Hn H He.
  - simpl in T. inversion T. subst. simpl in Hn. lia.
  - cbn [translateAll] in T. cbn [app pump].
    destruct (data rawEvent) as [d|]; [|by apply (IH st events n)].
    destruct (String.eqb d "[DONE]"); [done|].
    destruct (String.eqb d ""); [by apply (IH st events n)|].
    destruct (JSON_parse d) as [?|chunk] eqn:Hp; [done|].
    destruct (translateChunkToAnthropicEvents chunk st)
      as [?|[evs st2]] eqn:Ht; [done|].
    destruct (translateAll JSON_parse translateChunkToAnthropicEvents
                st2 pulls) as [[later st3]|] eqn:T2; [|done].
    inversion T. subst. clear T.
    rewrite length_app in Hn.
    unfold mbind, M_bind. cbn [liftExn mret M_ret].
    rewrite Ht. cbn [liftExn mret M_ret fst snd].
    destruct (decide (n < length evs)) as [Hlt|Hge].
    + rewrite (writeEvents_rejected evs n e) by done.
      by rewrite take_app_le by lia.
    + rewrite writeEvents_accepted by (intros k Hk; apply H; lia).
      rewrite (IH st2 later (n - length evs)); [| done | lia | |].
      * rewrite wrote_app, <- fmap_app.
        replace (S n) with (length evs + S (n - length evs)) by lia.
        by rewrite take_app_add.
      * intros k Hk. simpl. rewrite length_fmap, <- Nat.add_assoc.
        apply H. lia.
      * simpl. rewrite length_fmap, <- Nat.add_assoc.
        by replace (length evs + (n - length evs)) with n by lia.
  - done.
Qed.

(** C6. In the streaming callback of either handler, whatever the
    stream does: when the loop over the backend's items ends without
    error [markResponseComplete] is called exactly once and
    [markRequestFailed] not at all; when it throws, [markRequestFailed]
    is called exactly once, [markResponseComplete] not at all, and the
    error is raised again.  Either way [heartbeatManager.stop()] is
    called exactly once, as the last call made.

    And what the stream does decides which of the two it is.  In the
    chat-completions handler, with [chunks] pulled and written: a stream
    that is exhausted then completes; a pull that then throws [e], or a
    next write that the stream rejects with [e], fails with [e].  In the
    messages handler, with items pulled, translated to [events] and
    written: a stream that is exhausted then, or gives the [DONE]
    sentinel, completes; a pull that then throws [e], a next item whose
    data [JSON.parse] or the translator rejects with [e], or a write of
    one of the events that the stream rejects with [e], fails with [e].
    Every such run is given call by call: [start], the writes,
    the one billing hook, [stop]. *)
Theorem stream_callbacks_settle_billing_and_stop_heartbeat
    (m : BillingCycle.BillingCycleManager) :
  let start := record HeartbeatStart (emptyWorld m) in
  let completion := streamCompletion sink now in
  let messages :=
    streamMessages sink now JSON_parse translateChunkToAnthropicEvents
      eventType JSON_stringify streamState0 in
  let message := eventMessage eventType JSON_stringify in
  (∀ pulls,
     (let '(w, r) := completion pulls (emptyWorld m) in
      r = snd (forward sink pulls start)
      ∧ match r with
        | inr _ =>
            calls MarkResponseComplete (trace w) = 1%nat
            ∧ calls MarkRequestFailed (trace w) = 0%nat
            ∧ billing w = BillingCycle.markResponseComplete now m
        | inl _ =>
            calls MarkRequestFailed (trace w) = 1%nat
            ∧ calls MarkResponseComplete (trace w) = 0%nat
            ∧ billing w = BillingCycle.markRequestFailed m
        end
      ∧ calls HeartbeatStop (trace w) = 1%nat
      ∧ last (trace w) = Some HeartbeatStop)
     ∧ (let '(w, r) := messages pulls (emptyWorld m) in
        r = snd (pump sink JSON_parse translateChunkToAnthropicEvents
                   eventType JSON_stringify streamState0 pulls start)
        ∧ match r with
          | inr _ =>
              calls MarkResponseComplete (trace w) = 1%nat
              ∧ calls MarkRequestFailed (trace w) = 0%nat
              ∧ billing w = BillingCycle.markResponseComplete now m
          | inl _ =>
              calls MarkRequestFailed (trace w) = 1%nat
              ∧ calls MarkResponseComplete (trace w) = 0%nat
              ∧ billing w = BillingCycle.markRequestFailed m
          end
        ∧ calls HeartbeatStop (trace w) = 1%nat
        ∧ last (trace w) = Some HeartbeatStop))
  ∧ (∀ chunks,
       accepts sink (length chunks) →
       completion (Yields <$> chunks) (emptyWorld m)
       = completedWith now m chunks
       ∧ (∀ e rest,
            completion ((Yields <$> chunks) ++ Throws e :: rest)
              (emptyWorld m)
            = failedWith m chunks e)
       ∧ (∀ chunk e rest,
            sink (length chunks) = Some e →
            completion ((Yields <$> chunks) ++ Yields chunk :: rest)
              (emptyWorld m)
            = failedWith m (chunks ++ [chunk]) e))
  ∧ (∀ pulls events st,
       translateAll JSON_parse translateChunkToAnthropicEvents
         streamState0 pulls = Some (events, st) →
       (accepts sink (length events) →
        messages pulls (emptyWorld m)
        = completedWith now m (message <$> events)
        ∧ (∀ name rest,
             messages
               (pulls ++ Yields {| event := name; data := Some "[DONE]" |}
                      :: rest) (emptyWorld m)
             = completedWith now m (message <$> events))
        ∧ (∀ e rest,
             messages (pulls ++ Throws e :: rest) (emptyWorld m)
             = failedWith m (message <$> events) e)
        ∧ (∀ rawEvent d e rest,
             data rawEvent = Some d → d ≠ "[DONE]" → d ≠ "" →
             JSON_parse d = inl e →
             messages (pulls ++ Yields rawEvent :: rest) (emptyWorld m)
             = failedWith m (message <$> events) e)
        ∧ (∀ rawEvent d chunk e rest,
             data rawEvent = Some d → d ≠ "[DONE]" → d ≠ "" →
             JSON_parse d = inr chunk →
             translateChunkToAnthropicEvents chunk st = inl e →
             messages (pulls ++ Yields rawEvent :: rest) (emptyWorld m)
             = failedWith m (message <$> events) e))
       ∧ (∀ n e rest,
            n < length events → accepts sink n → sink n = Some e →
            messages (pulls ++ rest) (emptyWorld m)
            = failedWith m (message <$> take (S n) events) e)).
Proof.
  intros start completion messages message.
  split; [|split].
  - intros pulls. split.
    + apply (callback_outcome (forward sink pulls) m), forward_writesOnly.
    + apply (callback_outcome
               (pump sink JSON_parse translateChunkToAnthropicEvents
                  eventType JSON_stringify streamState0 pulls) m),
        pump_writesOnly.
  - intros chunks A. split; [|split].
    + apply callback_completed.
      rewrite <- (app_nil_r (Yields <$> chunks)).
      by rewrite forward_accepted by (intros k Hk; apply A, Hk).
    + intros e rest. apply callback_failed.
      by rewrite forward_accepted by (intros k Hk; apply A, Hk).
    + intros chunk e rest He. apply callback_failed.
      apply forward_rejected; [intros k Hk; apply A, Hk | done].
  - intros pulls events st T. split.
    + intros A.
      assert (P : ∀ rest,
                 pump sink JSON_parse translateChunkToAnthropicEvents
                   eventType JSON_stringify streamState0 (pulls ++ rest) start
                 = pump sink JSON_parse translateChunkToAnthropicEvents
                     eventType JSON_stringify st rest
                     (wrote (message <$> events) start)).
      { intros rest. apply pump_translated; [done|].
        intros k Hk. apply A, Hk. }
      split; [|split; [|split; [|split]]].
      * apply callback_completed. rewrite <- (app_nil_r pulls). by rewrite P.
      * intros name rest. apply callback_completed. by rewrite P.
      * intros e rest. apply callback_failed. by rewrite P.
      * intros rawEvent d e rest Hd H1 H2 Hp. apply callback_failed.
        rewrite P. cbn [pump]. rewrite Hd.
        apply String.eqb_neq in H1, H2. rewrite H1, H2.
        unfold mbind, M_bind. by rewrite Hp.
      * intros rawEvent d chunk e rest Hd H1 H2 Hp Ht. apply callback_failed.
        rewrite P. cbn [pump]. rewrite Hd.
        apply String.eqb_neq in H1, H2. rewrite H1, H2.
        unfold mbind, M_bind. rewrite Hp. cbn [liftExn mret M_ret].
        by rewrite Ht.
    + intros n e rest Hn A He. apply callback_failed.
      apply (pump_rejected pulls rest streamState0 st events n e);
        [done | done | intros k Hk; apply A, Hk | done].
Qed.

End TranslatedFacts.
End HandlerFacts.

Section HandlerDispatchFacts.
Import Handlers.

Variable sink : nat → option Exn.
Variable now : Z.
Context {Chunk StreamState AnthropicEvent : Type}.
Variable JSON_parse : string → Exn + Chunk.
Variable translateChunkToAnthropicEvents :
  Chunk → StreamState → Exn + (list AnthropicEvent * StreamState).
Variable eventType : AnthropicEvent → string.
Variable JSON_stringify : AnthropicEvent → string.
Variable translateToAnthropic : gmap string string → Exn + gmap string string.
Variable streamState0 : StreamState.

Lemma isNonStreaming_spec (response : BackendValue) :
  isNonStreaming response = true
  ↔ is_Some (ownProperties response !! "choices").
Proof. unfold isNonStreaming. apply bool_decide_eq_true. Qed.

(** C7. A value returned by the backend call is taken as a complete
    response exactly when it has an own property named ["choices"]: then
    both handlers answer with one JSON body; without that property both
    run the streaming callback over the value's items. *)
Theorem complete_response_iff_own_choices (response : BackendValue) :
  (isNonStreaming response = true
   ↔ is_Some (ownProperties response !! "choices"))
  ∧ (is_Some (ownProperties response !! "choices") →
     replyCompletion sink now response
     = mret (Json (ownProperties response))
     ∧ replyMessages sink now JSON_parse translateChunkToAnthropicEvents
         eventType JSON_stringify translateToAnthropic streamState0 response
       = (body ← liftExn (translateToAnthropic (ownProperties response));
          mret (Json body)))
  ∧ (ownProperties response !! "choices" = None →
     replyCompletion sink now response
     = streamSSE (streamCompletion sink now (items response))
     ∧ replyMessages sink now JSON_parse translateChunkToAnthropicEvents
         eventType JSON_stringify translateToAnthropic streamState0 response
       = streamSSE
           (streamMessages sink now JSON_parse
              translateChunkToAnthropicEvents eventType JSON_stringify
              streamState0 (items response))).
Proof.
  split; [apply isNonStreaming_spec|].
  unfold replyCompletion, replyMessages. split.
  - intros H. apply isNonStreaming_spec in H. by rewrite H.
  - intros H.
    assert (E : isNonStreaming response = false).
    { apply not_true_is_false. rewrite isNonStreaming_spec, H.
      by intros [? ?]. }
    by rewrite E.
Qed.

(** C5. In the chat-completions handler, once the backend call has
    returned a value with a ["choices"] property, the handler answers
    with that value as JSON and leaves the world exactly as the backend
    call left it: the billing manager is not touched and no billing hook
    is called.  When the value is a stream, the callback calls exactly
    one of the two billing hooks. *)
Theorem non_streaming_reply_calls_no_billing_hook
    (dispatch : M BackendValue) (w w1 : World) (response : BackendValue) :
  dispatch w = (w1, inr response) →
  (isNonStreaming response = true →
   handleCompletion sink now dispatch w
   = (w1, inr (Json (ownProperties response))))
  ∧ (isNonStreaming response = false →
     let w2 := fst (handleCompletion sink now dispatch w) in
     (calls MarkResponseComplete (trace w2)
      + calls MarkRequestFailed (trace w2)
      = calls MarkResponseComplete (trace w1)
        + calls MarkRequestFailed (trace w1) + 1)%nat).
Proof.
  intros Hd. unfold handleCompletion, mbind, M_bind. rewrite Hd.
  unfold replyCompletion. split; intros E; rewrite E; [done|].
  unfold streamSSE, streamCompletion, tryCatchFinally, mbind, M_bind,
    heartbeatStart.
  pose proof (forward_writesOnly sink (items response)
                (record HeartbeatStart w1)) as Hf.
  destruct (Hf MarkResponseComplete) as [_ C1]; [done|].
  destruct (Hf MarkRequestFailed) as [_ C2]; [done|].
  destruct (forward sink (items response) (record HeartbeatStart w1))
    as [w' [x|[]]]; simpl in *;
    rewrite !calls_snoc in *; simpl in *; lia.
Qed.

End HandlerDispatchFacts.

Section HandlerInstances.
Import Handlers.

Lemma complete_response_iff_own_choices_witness :
  let sink : nat → option Handlers.Exn := λ _, None in
  let complete :=
    {| Handlers.ownProperties := {["choices" := "[]"]};
       Handlers.items := [] |} in
  let stream :=
    {| Handlers.ownProperties := ∅;
       Handlers.items :=
         [Handlers.Yields {| Handlers.event := None;
                             Handlers.data := Some "[DONE]" |}] |} in
  Handlers.replyCompletion sink 0 complete
  = mret (Handlers.Json (Handlers.ownProperties complete))
  ∧ Handlers.replyCompletion sink 0 stream
    = Handlers.streamSSE
        (Handlers.streamCompletion sink 0 (Handlers.items stream)).
Proof.
  intros sink complete stream.
  pose proof (complete_response_iff_own_choices sink 0
                (λ s : string, inr s)
                (λ (c : string) (st : unit), inr ([c], st))
                (λ ev : string, ev) (λ ev : string, ev)
                (λ body, inr body) tt) as H.
  split.
  - destruct (H complete) as (_ & Hc & _).
    apply Hc. exists "[]". reflexivity.
  - destruct (H stream) as (_ & _ & Hs).
    apply Hs. reflexivity.
Defined.

Lemma non_streaming_reply_calls_no_billing_hook_witness :
  let sink : nat → option Handlers.Exn := λ _, None in
  let complete :=
    {| Handlers.ownProperties := {["choices" := "[]"]};
       Handlers.items := [] |} in
  let dispatch : Handlers.M Handlers.BackendValue :=
    λ w, ({| Handlers.billing :=
               snd (BillingCycle.determineInitiator 5 (Handlers.billing w));
             Handlers.trace := Handlers.trace w;
             Handlers.writes := Handlers.writes w |}, inr complete) in
  Handlers.handleCompletion sink 9 dispatch
    (Handlers.emptyWorld BillingCycle.initial)
  = ({| Handlers.billing :=
          {| BillingCycle.inCycle := true;
             BillingCycle.lastResponseTime := 0;
             BillingCycle.pendingResponses := 1 |};
        Handlers.trace := [];
        Handlers.writes := 0 |},
     inr (Handlers.Json {["choices" := "[]"]})).
Proof.
  intros sink complete dispatch.
  apply (non_streaming_reply_calls_no_billing_hook sink 9 dispatch
           (Handlers.emptyWorld BillingCycle.initial) _ complete);
    reflexivity.
Defined.

Lemma stream_callbacks_settle_billing_and_stop_heartbeat_witness :
  let sink : nat → option Exn :=
    λ k, if Nat.eqb k 1 then Some "EPIPE" else None in
  let chunk d := {| event := None; data := Some d |} in
  let parse (d : string) : Exn + string := inr d in
  let translate (c : string) (st : unit) : Exn + (list string * unit) :=
    inr ([c], st) in
  let name (ev : string) : string := ev in
  let billed := snd (BillingCycle.determineInitiator 10 BillingCycle.initial) in
  streamCompletion sink 99
    [Yields (chunk "a"); Yields (chunk "b"); Yields (chunk "c")]
    (emptyWorld billed)
  = failedWith billed [chunk "a"; chunk "b"] "EPIPE"
  ∧ streamMessages sink 99 parse translate name name tt
      [Yields (chunk "x"); Throws "ECONNRESET"; Yields (chunk "y")]
      (emptyWorld billed)
    = failedWith billed [{| event := Some "x"; data := Some "x" |}]
        "ECONNRESET"
  ∧ streamMessages sink 99 parse translate name name tt
      [Yields (chunk "x"); Yields (chunk ""); Yields (chunk "[DONE]");
       Yields (chunk "y")]
      (emptyWorld billed)
    = completedWith 99 billed [{| event := Some "x"; data := Some "x" |}].
Proof.
  intros sink chunk parse translate name billed.
  pose proof (stream_callbacks_settle_billing_and_stop_heartbeat
                sink 99 parse translate name name tt billed) as H.
  cbv zeta in H. destruct H as (_ & Hn & Hm).
  assert (A : accepts sink 1).
  { intros k Hk. destruct k; [reflexivity | lia]. }
  split; [|split].
  - exact (proj2 (proj2 (Hn [chunk "a"] A))
             (chunk "b") "EPIPE" [Yields (chunk "c")] eq_refl).
  - exact (proj1 (proj2 (proj2 (proj1
             (Hm [Yields (chunk "x")] ["x"] tt eq_refl) A)))
             "ECONNRESET" [Yields (chunk "y")]).
  - exact (proj1 (proj2 (proj1
             (Hm [Yields (chunk "x"); Yields (chunk "")] ["x"] tt eq_refl) A))
             None [Yields (chunk "y")]).
Defined.

(** The chat-completions callback on a stream of three chunks whose
    second write is rejected, and on a stream that ends normally. *)
Example stream_completion_write_rejected :
  let sink : nat → option Exn := λ k, if Nat.eqb k 1 then Some "EPIPE" else None in
  let chunk d := Yields {| event := None; data := Some d |} in
  let billed := snd (BillingCycle.determineInitiator 10 BillingCycle.initial) in
  let '(w, r) := streamCompletion sink 99 [chunk "a"; chunk "b"; chunk "c"]
                   (emptyWorld billed) in
  r = inl "EPIPE"
  ∧ trace w = [HeartbeatStart;
               WriteSSE {| event := None; data := Some "a" |};
               WriteSSE {| event := None; data := Some "b" |};
               MarkRequestFailed; HeartbeatStop]
  ∧ billing w = BillingCycle.initial.
Proof. repeat split. Qed.

Example stream_completion_exhausted :
  let sink : nat → option Exn := λ _, None in
  let chunk d := Yields {| event := None; data := Some d |} in
  let billed := snd (BillingCycle.determineInitiator 10 BillingCycle.initial) in
  let '(w, r) := streamCompletion sink 99 [chunk "a"; chunk "b"]
                   (emptyWorld billed) in
  r = inr tt
  ∧ trace w = [HeartbeatStart;
               WriteSSE {| event := None; data := Some "a" |};
               WriteSSE {| event := None; data := Some "b" |};
               MarkResponseComplete; HeartbeatStop]
  ∧ billing w = {| BillingCycle.inCycle := true;
                   BillingCycle.lastResponseTime := 99;
                   BillingCycle.pendingResponses := 0 |}.
Proof. repeat split. Qed.

(** The messages callback with the specification's translator model
    plugged in: an upstream error after the first frame. *)
Example stream_messages_upstream_error :
  let sink : nat → option Exn := λ _, None in
  let parse (d : string) : Exn + StreamTranslation.Frame :=
    inr {| StreamTranslation.text := Some d;
           StreamTranslation.toolCall := None;
           StreamTranslation.finishReason := None;
           StreamTranslation.usage := None |} in
  let translate f st : Exn + _ := inr (StreamTranslation.translateChunk f st) in
  let name (ev : StreamTranslation.Event) : string :=
    match ev with
    | StreamTranslation.message_start => "message_start"
    | StreamTranslation.content_block_start _ _ _ => "content_block_start"
    | StreamTranslation.content_block_delta _ _ => "content_block_delta"
    | StreamTranslation.content_block_stop _ => "content_block_stop"
    | StreamTranslation.message_delta _ _ => "message_delta"
    | StreamTranslation.message_stop => "message_stop"
    end in
  let '(w, r) :=
    streamMessages sink 99 parse translate name name
      StreamTranslation.initialState
      [Yields {| event := None; data := Some "Hi" |}; Throws "ECONNRESET"]
      (emptyWorld (snd (BillingCycle.determineInitiator 10 BillingCycle.initial))) in
  r = inl "ECONNRESET"
  ∧ trace w
    = [HeartbeatStart;
       WriteSSE {| event := Some "message_start";
                   data := Some "message_start" |};
       WriteSSE {| event := Some "content_block_start";
                   data := Some "content_block_start" |};
       WriteSSE {| event := Some "content_block_delta";
                   data := Some "content_block_delta" |};
       MarkRequestFailed; HeartbeatStop].
Proof. repeat split. Qed.

End HandlerInstances.

Section StreamTranslationFacts.
Import StreamTranslation.

Local Open Scope nat_scope.

(** *** The language of the protocol automaton *)











(** *** The translator's output follows the automaton *)
















(** The two streams of the specification's section 8. *)
Example translate_text_scenario :
  translateStream
    [ {| text := None; toolCall := None;
         finishReason := None; usage := None |};
      {| text := Some "Hello"; toolCall := None;
         finishReason := None; usage := None |};
      {| text := Some " world"; toolCall := None;
         finishReason := None; usage := None |};
      {| text := None; toolCall := None;
         finishReason := Some FinishStop; usage := None |} ]
  = [ message_start;
      content_block_start 0 TextBlock "";
      content_block_delta 0 "Hello";
      content_block_delta 0 " world";
      content_block_stop 0;
      message_delta end_turn 0;
      message_stop ].
Proof. reflexivity. Qed.

Example translate_tool_scenario :
  translateStream
    [ {| text := None;
         toolCall := Some {| callIndex := 0; callName := Some "foo";
                             callArguments := None |};
         finishReason := None; usage := None |};
      {| text := None;
         toolCall := Some {| callIndex := 0; callName := None;
                             callArguments := Some "{a:1" |};
         finishReason := None; usage := None |};
      {| text := None;
         toolCall := Some {| callIndex := 0; callName := None;
                             callArguments := Some "}" |};
         finishReason := None; usage := None |};
      {| text := None; toolCall := None;
         finishReason := Some FinishToolCalls; usage := None |} ]
  = [ message_start;
      content_block_start 0 ToolUseBlock "foo";
      content_block_delta 0 "{a:1";
      content_block_delta 0 "}";
      content_block_stop 0;
      message_delta tool_use 0;
      message_stop ].
Proof. reflexivity. Qed.

End StreamTranslationFacts.

Section LockedBillingFacts.
Import BillingCycle LockedBilling.

Local Open Scope nat_scope.

(** *** Counting under an update of one entry *)

Lemma filter_insert_length {A} (P : A → Prop) `{∀ x, Decision (P x)}
    (l : list A) (i : nat) (x y : A) :
  l !! i = Some x →
  length (filter P (<[i:=y]> l)) + (if decide (P x) then 1 else 0)
  = length (filter P l) + (if decide (P y) then 1 else 0).
Proof.
  revert i. induction l as [|a l IH]; intros [|i] Hi; try done.
  - simpl in Hi. inversion Hi; subst a. simpl.
    rewrite !filter_cons.
    destruct (decide (P x)), (decide (P y)); simpl; lia.
  - simpl in Hi. simpl. rewrite !filter_cons.
    specialize (IH i Hi).
    destruct (decide (P a)); simpl; lia.
Qed.

Lemma sum_insert (f : Task → nat) (l : list Task) (i : nat) (x y : Task) :
  l !! i = Some x →
  sum_list_with f (<[i:=y]> l) + f x = sum_list_with f l + f y.
Proof.
  revert i. induction l as [|a l IH]; intros [|i] Hi; try done.
  - simpl in Hi. inversion Hi; subst a. simpl. lia.
  - simpl in Hi. simpl. specialize (IH i Hi). lia.
Qed.

Lemma verdicts_insert (v : Initiator) (w : Runtime) (i : nat) (x y : Task) :
  tasks w !! i = Some x →
  length (filter (λ t, t = Returned v) (<[i:=y]> (tasks w)))
  + (if decide (x = Returned v) then 1 else 0)
  = verdicts v w + (if decide (y = Returned v) then 1 else 0).
Proof.
  intros Hi. unfold verdicts.
  exact (filter_insert_length (λ t, t = Returned v) (tasks w) i x y Hi).
Qed.

(** *** Each job moves its invocation one step on *)

Lemma step_inv (w w' : Runtime) (i : nat) (now : Z) :
  step w (i, now) = Some w' →
  (tasks w !! i = Some NotCalled ∧ w' = callStart i w)
  ∨ (∃ cur rel, tasks w !! i = Some (AwaitLock cur rel)
       ∧ resolved w cur = true ∧ w' = resumeAcquire i rel w)
  ∨ (tasks w !! i = Some Acquired ∧ w' = resumeCritical i now w).
Proof.
  unfold step. destruct (tasks w !! i) as [[|cur rel| |v]|]; try done.
  - intros [= <-]. by left.
  - destruct (resolved w cur) eqn:E; [|done].
    intros [= <-]. right; left. by exists cur, rel.
  - intros [= <-]. by right; right.
Qed.

Lemma step_progress (w w' : Runtime) (c : nat * Z) :
  step w c = Some w' →
  progress w' = S (progress w) ∧ length (tasks w') = length (tasks w).
Proof.
  destruct c as [i now]. intros H.
  apply step_inv in H as [[Hi ->]|[(cur & rel & Hi & _ & ->)|[Hi ->]]];
    unfold progress, callStart, resumeAcquire, resumeCritical.
  - simpl. rewrite length_insert. split; [|done].
    pose proof (sum_insert rank (tasks w) i _
                  (AwaitLock (lock w) (length (promises w))) Hi).
    simpl in *. lia.
  - simpl. rewrite length_insert. split; [|done].
    pose proof (sum_insert rank (tasks w) i _ Acquired Hi).
    simpl in *. lia.
  - destruct (determineInitiator now (manager w)) as [v m].
    simpl. rewrite length_insert. split; [|done].
    pose proof (sum_insert rank (tasks w) i _ (Returned v) Hi).
    simpl in *. lia.
Qed.

Lemma progress_bound (l : list Task) :
  sum_list_with rank l ≤ 3 * length l
  ∧ (forallb isReturned l = false → sum_list_with rank l < 3 * length l).
Proof.
  induction l as [|t l [IH1 IH2]]; simpl; [done|].
  split.
  - destruct t; simpl; lia.
  - destruct t; simpl; try lia. intros H. specialize (IH2 H). lia.
Qed.

Lemma run_progress (schedule : list (nat * Z)) (w w' : Runtime) :
  run schedule w = Some w' →
  progress w' = length schedule + progress w
  ∧ length (tasks w') = length (tasks w).
Proof.
  revert w. induction schedule as [|c rest IH]; intros w H; simpl in H.
  - by inversion H.
  - destruct (step w c) as [w1|] eqn:E; [|done].
    apply step_progress in E as [E1 E2].
    apply IH in H as [H1 H2]. simpl. split; lia.
Qed.

(** *** The billing state along a run *)

Lemma determineInitiator_closed (now : Z) (m : BillingCycleManager) :
  inCycle m = false →
  determineInitiator now m
  = (User, {| inCycle := true;
              lastResponseTime := lastResponseTime m;
              pendingResponses := (pendingResponses m + 1)%Z |}).
Proof.
  intros H. unfold determineInitiator, expireIfTimedOut, timedOut.
  rewrite H. simpl. by rewrite H.
Qed.

Lemma determineInitiator_pending (now : Z) (m : BillingCycleManager) :
  inCycle m = true → pendingResponses m ≠ 0%Z →
  determineInitiator now m
  = (Agent, {| inCycle := true;
               lastResponseTime := lastResponseTime m;
               pendingResponses := (pendingResponses m + 1)%Z |}).
Proof.
  intros H Hp. unfold determineInitiator, expireIfTimedOut, timedOut.
  apply Z.eqb_neq in Hp. rewrite H, Hp. simpl. by rewrite H.
Qed.

Lemma verdicts_replicate (v : Initiator) (n : nat) :
  length (filter (λ t, t = Returned v) (replicate n NotCalled)) = 0.
Proof.
  induction n as [|n IH]; simpl; [done|].
  by rewrite filter_cons_False.
Qed.

Lemma billedOnce_settled (k : nat) (resolver : option nat) (n : nat)
    (m0 : BillingCycleManager) :
  inCycle m0 = false → pendingResponses m0 = 0%Z →
  billedOnce (settled k resolver n m0).
Proof.
  intros Hc Hp.
  assert (V : ∀ v, verdicts v (settled k resolver n m0) = 0)
    by (intros v; apply verdicts_replicate).
  split; simpl; rewrite ?V, ?Hc, ?Hp; done.
Qed.

Lemma verdicts_unreturned (v : Initiator) (w : Runtime) (i : nat)
    (x y : Task) :
  tasks w !! i = Some x → isReturned x = false → isReturned y = false →
  length (filter (λ t, t = Returned v) (<[i:=y]> (tasks w))) = verdicts v w.
Proof.
  intros Hi Hx Hy. pose proof (verdicts_insert v w i x y Hi) as E.
  destruct (decide (x = Returned v)) as [->|_]; [done|].
  destruct (decide (y = Returned v)) as [->|_]; [done|]. lia.
Qed.

Lemma verdicts_returning (v v' : Initiator) (w : Runtime) (i : nat)
    (x : Task) :
  tasks w !! i = Some x → isReturned x = false →
  length (filter (λ t, t = Returned v) (<[i:=Returned v']> (tasks w)))
  = verdicts v w + (if decide (v' = v) then 1 else 0).
Proof.
  intros Hi Hx. pose proof (verdicts_insert v w i x (Returned v') Hi) as E.
  destruct (decide (x = Returned v)) as [->|_]; [done|].
  destruct (decide (v' = v)) as [->|Hne].
  - rewrite decide_True in E by done. lia.
  - rewrite decide_False in E by congruence. lia.
Qed.

Lemma billedOnce_step (w w' : Runtime) (c : nat * Z) :
  billedOnce w → step w c = Some w' → billedOnce w'.
Proof.
  intros [P O U] H. destruct c as [i now].
  apply step_inv in H as [[Hi ->]|[(cur & rel & Hi & _ & ->)|[Hi ->]]].
  - assert (V : ∀ v, verdicts v (callStart i w) = verdicts v w)
      by (intros v; by apply (verdicts_unreturned v w i NotCalled)).
    split; simpl; rewrite !V; done.
  - assert (V : ∀ v, verdicts v (resumeAcquire i rel w) = verdicts v w)
      by (intros v; by apply (verdicts_unreturned v w i (AwaitLock cur rel))).
    split; simpl; rewrite !V; done.
  - unfold resumeCritical.
    destruct (inCycle (manager w)) eqn:C.
    + symmetry in O. apply bool_decide_eq_true in O.
      rewrite determineInitiator_pending; [|done|lia].
      split; unfold verdicts in *; simpl;
        rewrite !(verdicts_returning _ Agent w i Acquired Hi eq_refl);
        unfold verdicts; simpl.
      * lia.
      * symmetry. apply bool_decide_eq_true. lia.
      * lia.
    + symmetry in O. apply bool_decide_eq_false in O.
      rewrite determineInitiator_closed; [|done].
      split; unfold verdicts in *; simpl;
        rewrite !(verdicts_returning _ User w i Acquired Hi eq_refl);
        unfold verdicts; simpl.
      * lia.
      * symmetry. apply bool_decide_eq_true. lia.
      * lia.
Qed.

Lemma billedOnce_run (schedule : list (nat * Z)) (w w' : Runtime) :
  billedOnce w → run schedule w = Some w' → billedOnce w'.
Proof.
  revert w. induction schedule as [|c rest IH]; intros w B H; simpl in H.
  - by inversion H; subst.
  - destruct (step w c) as [w1|] eqn:E; [|done].
    eapply IH; [|done]. by eapply billedOnce_step.
Qed.

Lemma allReturned_verdicts (l : list Task) :
  forallb isReturned l = true →
  length (filter (λ t, t = Returned User) l)
  + length (filter (λ t, t = Returned Agent) l) = length l.
Proof.
  induction l as [|t l IH]; simpl; [done|].
  intros [Ht Hl]%andb_true_iff. specialize (IH Hl).
  destruct t as [| | |[]]; try done.
  - rewrite filter_cons_True, filter_cons_False by done. simpl. lia.
  - rewrite filter_cons_False, filter_cons_True by done. simpl. lia.
Qed.

(** *** The promise chain along a run *)

Lemma lookup_update (l : list Task) (i j : nat) (x t : Task) :
  l !! i = Some x →
  <[i:=t]> l !! j = if decide (i = j) then Some t else l !! j.
Proof.
  intros Hi. destruct (decide (i = j)) as [<-|Hne].
  - apply list_lookup_insert_eq. by eapply lookup_lt_Some.
  - by apply list_lookup_insert_ne.
Qed.

Lemma ticket_range (k : nat) (w : Runtime) (i p : nat) :
  chained k w → tasks w !! i ≫= ticket k = Some p →
  k < p ∧ p < length (promises w).
Proof.
  intros C H. destruct (tasks w !! i) as [[|cur rel| |v]|] eqn:E;
    simpl in H; try done; inversion H; subst p.
  - destruct (waiting_next k w C i cur rel E) as (_ & ? & ?). lia.
  - destruct (holder_resolver k w C i E) as [_ ?]. lia.
Qed.

Lemma resolved_replicate (k p : nat) :
  default false (replicate (S k) true !! p) = true ↔ p ≤ k.
Proof.
  destruct (decide (p ≤ k)) as [Hle|Hgt].
  - rewrite lookup_replicate_2 by lia. done.
  - rewrite (proj1 (lookup_replicate_None (S k) true p)) by lia.
    simpl. split; [done|lia].
Qed.

Lemma chained_settled (k : nat) (resolver : option nat) (n : nat)
    (m0 : BillingCycleManager) :
  chained k (settled k resolver n m0).
Proof.
  split; unfold settled; cbn [lock promises tasks releaseLock];
    rewrite ?length_replicate.
  - done.
  - intros p. apply resolved_replicate.
  - lia.
  - intros i cur rel H. by apply lookup_replicate_1 in H as [? _].
  - intros i H. by apply lookup_replicate_1 in H as [? _].
  - intros i j p H.
    destruct (replicate n NotCalled !! i) as [t|] eqn:E; [|done].
    apply lookup_replicate_1 in E as [-> _]. done.
  - lia.
Qed.

Lemma resolved_callStart (i p : nat) (w : Runtime) :
  resolved (callStart i w) p = resolved w p.
Proof.
  unfold resolved. simpl.
  destruct (decide (p < length (promises w))) as [Hlt|Hge].
  - by rewrite lookup_app_l.
  - rewrite lookup_app_r by lia.
    rewrite (lookup_ge_None_2 (promises w)) by lia.
    by destruct (p - length (promises w)) as [|[|?]].
Qed.

Lemma chained_callStart (k i : nat) (w : Runtime) :
  chained k w → tasks w !! i = Some NotCalled → chained k (callStart i w).
Proof.
  intros C Hi. pose proof C as [L R B W Hh TU TO].
  assert (Len : length (promises (callStart i w)) = S (length (promises w))).
  { simpl. rewrite length_app. simpl. lia. }
  split; rewrite ?Len.
  - done.
  - intros p. rewrite resolved_callStart. apply R.
  - lia.
  - intros j cur rel. simpl. rewrite (lookup_update _ i j _ _ Hi).
    case_decide.
    + intros [= <- <-]. lia.
    + intros H'. destruct (W j cur rel H') as (? & ? & ?). lia.
  - intros j. simpl. rewrite (lookup_update _ i j _ _ Hi).
    case_decide; [done|].
    intros H'. destruct (Hh j H') as [? ?]. split; [done|lia].
  - intros j1 j2 p. simpl.
    rewrite (lookup_update _ i j1 _ _ Hi), (lookup_update _ i j2 _ _ Hi).
    repeat case_decide; subst; simpl; try done.
    + intros [= <-] H2. apply (ticket_range k w j2 _ C) in H2. lia.
    + intros H1 [= <-]. apply (ticket_range k w j1 _ C) in H1. lia.
    + apply TU.
  - intros p Hk Hp. simpl.
    destruct (decide (p = length (promises w))) as [->|Hne].
    + exists i. by rewrite (lookup_update _ i i _ _ Hi), decide_True.
    + destruct (TO p Hk) as [j Hj]; [lia|]. exists j.
      rewrite (lookup_update _ i j _ _ Hi), decide_False; [done|].
      intros <-. by rewrite Hi in Hj.
Qed.

Lemma chained_resumeAcquire (k i cur rel : nat) (w : Runtime) :
  chained k w → tasks w !! i = Some (AwaitLock cur rel) →
  resolved w cur = true → chained k (resumeAcquire i rel w).
Proof.
  intros C Hi Hr. pose proof C as [L R B W Hh TU TO].
  destruct (W i cur rel Hi) as (-> & Hk & Hlen).
  apply R in Hr. assert (cur = k) as -> by lia.
  assert (T : ∀ j, tasks (resumeAcquire i (S k) w) !! j ≫= ticket k
                   = tasks w !! j ≫= ticket k).
  { intros j. simpl. rewrite (lookup_update _ i j _ _ Hi).
    case_decide; [subst j; by rewrite Hi | done]. }
  split.
  - done.
  - done.
  - done.
  - intros j cur rel. simpl. rewrite (lookup_update _ i j _ _ Hi).
    case_decide; [done | apply W].
  - intros j _. done.
  - intros j1 j2 p. rewrite !T. apply TU.
  - intros p Hp1 Hp2. destruct (TO p Hp1 Hp2) as [j Hj].
    exists j. by rewrite T.
Qed.

Lemma chained_resumeCritical (k i : nat) (now : Z) (w : Runtime) :
  chained k w → tasks w !! i = Some Acquired →
  chained (S k) (resumeCritical i now w).
Proof.
  intros C Hi. pose proof C as [L R B W Hh TU TO].
  destruct (Hh i Hi) as [Hrel Hlen].
  assert (Ti : tasks w !! i ≫= ticket k = Some (S k)) by by rewrite Hi.
  unfold resumeCritical.
  destruct (determineInitiator now (manager w)) as [v m].
  unfold callReleaseLock. rewrite Hrel.
  assert (T : ∀ j p,
    <[i:=Returned v]> (tasks w) !! j ≫= ticket (S k) = Some p →
    tasks w !! j ≫= ticket k = Some p ∧ j ≠ i ∧ p ≠ S k).
  { intros j p. rewrite (lookup_update _ i j _ _ Hi).
    case_decide; [done|].
    destruct (tasks w !! j) as [[|c r| |v']|] eqn:E; simpl; try done.
    - intros [= <-]. split; [done|]. split; [done|].
      intros ->. apply H. apply (TU i j (S k)); [done | by rewrite E].
    - intros _. exfalso. apply H.
      apply (TU i j (S k)); [done | by rewrite E]. }
  split; simpl; rewrite ?length_insert.
  - done.
  - intros p. unfold resolved. simpl.
    destruct (decide (p = S k)) as [->|Hne].
    + rewrite list_lookup_insert_eq by done. simpl. split; [lia|done].
    + rewrite list_lookup_insert_ne by done.
      specialize (R p). unfold resolved in R. rewrite R. lia.
  - done.
  - intros j cur rel Hj.
    destruct (T j rel) as (Hj' & _ & Hne); [by rewrite Hj|].
    rewrite (lookup_update _ i j _ _ Hi) in Hj.
    case_decide; [done|].
    destruct (W j cur rel Hj) as (? & ? & ?). lia.
  - intros j Hj. exfalso.
    destruct (T j (S (S k))) as (Hj' & Hji & _); [by rewrite Hj|].
    rewrite (lookup_update _ i j _ _ Hi), decide_False in Hj by done.
    apply Hji. symmetry. apply (TU i j (S k)); [done | by rewrite Hj].
  - intros j1 j2 p H1 H2.
    apply T in H1 as (H1 & _). apply T in H2 as (H2 & _).
    by apply (TU j1 j2 p).
  - intros p Hp1 Hp2. destruct (TO p) as [j Hj]; [lia|done|].
    exists j. rewrite (lookup_update _ i j _ _ Hi).
    case_decide as Hij.
    + subst j. rewrite Ti in Hj. inversion Hj. lia.
    + destruct (tasks w !! j) as [[|c r| |v']|]; simpl in *; try done.
      inversion Hj. lia.
Qed.

Lemma chained_step (k : nat) (w w' : Runtime) (c : nat * Z) :
  chained k w → step w c = Some w' → ∃ k', chained k' w'.
Proof.
  intros C H. destruct c as [i now].
  apply step_inv in H as [[Hi ->]|[(cur & rel & Hi & Hr & ->)|[Hi ->]]].
  - exists k. by apply chained_callStart.
  - exists k. by apply (chained_resumeAcquire k i cur rel).
  - exists (S k). by apply chained_resumeCritical.
Qed.

Lemma chained_run (schedule : list (nat * Z)) (k : nat) (w w' : Runtime) :
  chained k w → run schedule w = Some w' → ∃ k', chained k' w'.
Proof.
  revert k w. induction schedule as [|c rest IH]; intros k w C H;
    simpl in H.
  - inversion H; subst. by exists k.
  - destruct (step w c) as [w1|] eqn:E; [|done].
    destruct (chained_step k w w1 c C E) as [k1 C1].
    by apply (IH k1 w1).
Qed.

(** *** One holder at a time, and no deadlock *)

Lemma filter_none (l : list Task) :
  (∀ j, l !! j ≠ Some Acquired) → filter (λ t, t = Acquired) l = [].
Proof.
  induction l as [|a l IH]; intros H; [done|].
  rewrite filter_cons_False; [|intros ->; by apply (H 0)].
  apply IH. intros j. apply (H (S j)).
Qed.

Lemma one_holder (l : list Task) :
  (∀ i j, l !! i = Some Acquired → l !! j = Some Acquired → i = j) →
  length (filter (λ t, t = Acquired) l) ≤ 1.
Proof.
  induction l as [|a l IH]; intros H; [simpl; lia|].
  destruct (decide (a = Acquired)) as [->|Hne].
  - rewrite filter_cons_True by done.
    rewrite filter_none; [simpl; lia|].
    intros j Hj. by specialize (H 0 (S j) eq_refl Hj).
  - rewrite filter_cons_False by done.
    apply IH. intros i j Hi Hj.
    specialize (H (S i) (S j) Hi Hj). lia.
Qed.

Lemma chained_one_holder (k : nat) (w : Runtime) :
  chained k w → holders w ≤ 1.
Proof.
  intros C. apply one_holder. intros i j Hi Hj.
  apply (ticket_unique k w C i j (S k)); by rewrite ?Hi, ?Hj.
Qed.

Lemma forallb_false_lookup (l : list Task) :
  forallb isReturned l = false →
  ∃ i t, l !! i = Some t ∧ isReturned t = false.
Proof.
  induction l as [|a l IH]; simpl; [done|].
  destruct (isReturned a) eqn:E; simpl.
  - intros H. destruct (IH H) as (i & t & Hi & Ht). by exists (S i), t.
  - intros _. by exists 0, a.
Qed.

(** While some invocation has not returned, some job is ready. *)
Lemma chained_ready (k : nat) (w : Runtime) :
  chained k w → allReturned w = false →
  ∃ c w', step w c = Some w'.
Proof.
  intros C H. pose proof C as [L R B W Hh TU TO].
  apply forallb_false_lookup in H as (i & t & Hi & Ht).
  destruct t as [|cur rel| |v]; [| | |done].
  - exists (i, 0%Z). eexists. unfold step. by rewrite Hi.
  - destruct (W i cur rel Hi) as (-> & Hk & Hlen).
    destruct (TO (S k)) as [j Hj]; [lia|lia|].
    destruct (tasks w !! j) as [[|c r| |v']|] eqn:E; simpl in Hj; try done.
    + inversion Hj; subst r.
      destruct (W j c (S k) E) as (Hc & _ & _).
      assert (c = k) as -> by lia.
      exists (j, 0%Z). eexists. unfold step. rewrite E.
      by rewrite (proj2 (R k)).
    + exists (j, 0%Z). eexists. unfold step. by rewrite E.
  - exists (i, 0%Z). eexists. unfold step. by rewrite Hi.
Qed.

(** From every state of the chain the calls can all be brought to
    return. *)
Lemma chained_completes (d k : nat) (w : Runtime) :
  chained k w → 3 * length (tasks w) - progress w ≤ d →
  ∃ rest w', run rest w = Some w' ∧ allReturned w' = true.
Proof.
  revert k w. induction d as [|d IH]; intros k w C Hd;
    destruct (allReturned w) eqn:A;
    try (by exists [], w).
  - destruct (progress_bound (tasks w)) as [_ Hlt].
    specialize (Hlt A). unfold progress in Hd. lia.
  - destruct (chained_ready k w C A) as (c & w1 & Hs).
    destruct (chained_step k w w1 c C Hs) as [k1 C1].
    destruct (step_progress w w1 c Hs) as [P1 P2].
    destruct (IH k1 w1 C1) as (rest & w' & Hr & Ha); [lia|].
    exists (c :: rest), w'. simpl. by rewrite Hs.
Qed.

(** C1.  Let [n >= 1] calls of [determineInitiator] be made on a manager
    with a closed cycle and nothing pending, all earlier invocations
    having run to their end, and let the jobs of the [n] invocations run
    in any order a scheduler may choose.  At every point of the run at
    most one invocation is inside the lock; the run has taken at most
    [3 * n] jobs and can be continued until every call has returned; and
    once every call has returned, exactly one has returned [User] and
    the other [n - 1] have returned [Agent]. *)
Theorem concurrent_first_calls_bill_exactly_once
    (k : nat) (resolver : option nat) (n : nat) (m0 : BillingCycleManager)
    (schedule : list (nat * Z)) (w : Runtime) :
  1 ≤ n → inCycle m0 = false → pendingResponses m0 = 0%Z →
  run schedule (settled k resolver n m0) = Some w →
  holders w ≤ 1
  ∧ length schedule ≤ 3 * n
  ∧ (∃ rest w', run rest w = Some w' ∧ allReturned w' = true)
  ∧ (allReturned w = true →
     verdicts User w = 1 ∧ verdicts Agent w = n - 1).
Proof.
  intros Hn Hc Hp Hrun.
  destruct (chained_run schedule k _ w
              (chained_settled k resolver n m0) Hrun) as [k' C].
  pose proof (billedOnce_run schedule _ w
                (billedOnce_settled k resolver n m0 Hc Hp) Hrun)
    as [P O U].
  destruct (run_progress schedule _ w Hrun) as [Pr Len].
  assert (Hlen : length (tasks w) = n).
  { rewrite Len. simpl. apply length_replicate. }
  split; [by apply (chained_one_holder k')|].
  split.
  { destruct (progress_bound (tasks w)) as [Hb _].
    unfold progress in Pr. lia. }
  split; [by apply (chained_completes _ k' w C (Nat.le_refl _))|].
  intros A. apply allReturned_verdicts in A.
  fold (verdicts User w) in A. fold (verdicts Agent w) in A.
  rewrite Hlen in A.
  destruct (inCycle (manager w)).
  - lia.
  - symmetry in O. apply bool_decide_eq_false in O. lia.
Qed.

Lemma concurrent_first_calls_bill_exactly_once_witness :
  ∃ w, run (fifoSchedule 3 7) (start 3 initial) = Some w
       ∧ allReturned w = true
       ∧ verdicts User w = 1
       ∧ verdicts Agent w = 2.
Proof.
  eexists. split; [reflexivity|]. split; [reflexivity|].
  apply (concurrent_first_calls_bill_exactly_once 0 None 3 initial
           (fifoSchedule 3 7));
    [lia | reflexivity | reflexivity | reflexivity | reflexivity].
Defined.

(** The same on a manager that was used before: one earlier call was
    billed and failed, which closed the cycle again. *)
Example three_calls_after_an_abandoned_cycle :
  markRequestFailed (snd (determineInitiator 1 initial)) = initial
  ∧ (tasks <$> run [(2, 5%Z); (0, 5%Z); (1, 5%Z); (2, 5%Z); (2, 6%Z);
                    (0, 7%Z); (0, 7%Z); (1, 8%Z); (1, 8%Z)]
                 (settled 1 (Some 1) 3 initial))
    = Some [Returned Agent; Returned Agent; Returned User].
Proof. split; reflexivity. Qed.

(** While the first caller is inside the lock the second has no ready
    job. *)
Example second_caller_waits :
  ∃ w, run [(0, 0%Z); (1, 0%Z); (0, 0%Z)] (start 2 initial) = Some w
       ∧ tasks w = [Acquired; AwaitLock 1 2]
       ∧ step w (1, 0%Z) = None.
Proof. eexists. repeat split. Qed.

(** "multiple concurrent requests after first should all be agent"
    (tests/billing-cycle.test.ts). *)
Example five_followers_all_agent :
  tasks <$> run (fifoSchedule 5 30)
              (start 5 (markResponseComplete 20
                          (snd (determineInitiator 10 initial))))
  = Some (replicate 5 (Returned Agent)).
Proof. reflexivity. Qed.

End LockedBillingFacts.

(* ===================================================================== *)
(** * Further properties of the code *)
(* ===================================================================== *)

Section BillingTraffic.
Import BillingCycle.





Lemma callCount_snoc (p : Call → bool) (cs : list Call) (c : Call) :
  callCount p (cs ++ [c]) = callCount p cs + (if p c then 1 else 0).
Proof.
  unfold callCount. rewrite List.filter_app, length_app. simpl.
  destruct (p c); simpl; lia.
Qed.

Lemma pending_after_determine (now : Z) (m : BillingCycleManager) :
  pendingResponses (snd (determineInitiator now m)) = pendingResponses m + 1.
Proof.
  unfold determineInitiator, expireIfTimedOut.
  destruct (timedOut now m); simpl; by destruct (inCycle m).
Qed.

(** X2.  [pendingResponses] never exceeds the number of [determineInitiator]
    calls made, and as long as [reset] is not called it is at least that
    number less the number of hooks called. *)
Theorem pending_between_calls_and_unsettled (cs : list Call) :
  pendingResponses (performAll cs initial) ≤ callCount isDetermine cs
  ∧ (callCount isReset cs = 0 →
     callCount isDetermine cs - callCount isHook cs
     ≤ pendingResponses (performAll cs initial)).
Proof.
  induction cs as [|c cs [IH1 IH2]] using rev_ind; [done|].
  rewrite performAll_snoc, !callCount_snoc.
  pose proof (performAll_pending_nonneg cs initial (Z.le_refl 0)) as Hp.
  destruct c as [now|now| |]; simpl.
  - rewrite pending_after_determine. split; [lia|]. intros H. lia.
  - split; [lia|]. intros H. lia.
  - split; [lia|]. intros H. lia.
  - split; [unfold callCount; lia|].
    intros H. unfold callCount in H. lia.
Qed.

Lemma pending_between_calls_and_unsettled_witness :
  2 - 1 ≤ pendingResponses
            (performAll [CallDetermine 1; CallDetermine 2; CallFailed] initial).
Proof.
  apply (pending_between_calls_and_unsettled
           [CallDetermine 1; CallDetermine 2; CallFailed]).
  reflexivity.
Defined.

(** X3.  While a response is pending no call is billed, however much time
    passes: when the hooks are not called, every further
    [determineInitiator] returns [Agent] and [pendingResponses] keeps
    growing. *)
Theorem no_billing_while_pending (times : list Z) (m : BillingCycleManager) :
  inCycle m = true → 0 < pendingResponses m →
  fst (determineAll times m) = replicate (length times) Agent
  ∧ pendingResponses (snd (determineAll times m))
    = pendingResponses m + Z.of_nat (length times)
  ∧ inCycle (snd (determineAll times m)) = true.
Proof.
  revert m. induction times as [|t times IH]; intros m Hc Hp.
  - simpl. repeat split; [lia | done].
  - simpl.
    assert (E : determineInitiator t m
                = (Agent, {| inCycle := true;
                             lastResponseTime := lastResponseTime m;
                             pendingResponses := pendingResponses m + 1 |})).
    { unfold determineInitiator, expireIfTimedOut, timedOut.
      assert ((pendingResponses m =? 0) = false) as -> by (apply Z.eqb_neq; lia).
      rewrite Hc. simpl. by rewrite Hc. }
    rewrite E.
    destruct (IH {| inCycle := true;
                    lastResponseTime := lastResponseTime m;
                    pendingResponses := pendingResponses m + 1 |})
      as (I1 & I2 & I3); [done | simpl; lia |].
    destruct (determineAll times _) as [vs m2]. simpl in *.
    rewrite I1, I2. repeat split; [lia | done].
Qed.

Lemma no_billing_while_pending_witness :
  fst (determineAll [1000000; 2000000; 3000000]
         (snd (determineInitiator 0 initial)))
  = [Agent; Agent; Agent].
Proof.
  apply (no_billing_while_pending [1000000; 2000000; 3000000]
           (snd (determineInitiator 0 initial)));
    [reflexivity | reflexivity].
Defined.

(** X4.  Requests that fail one after the other on a manager that has
    recorded no response are all billed, and leave the manager as they
    found it. *)
Theorem failing_requests_are_all_billed
    (times : list Z) (m : BillingCycleManager) :
  inCycle m = false → pendingResponses m = 0 → lastResponseTime m = 0 →
  serveAll (map (λ t, (t, Fails)) times) m
  = (replicate (length times) User, m).
Proof.
  intros Hc Hp Hl. induction times as [|t times IH]; [done|].
  simpl.
  assert (E : determineInitiator t m
              = (User, {| inCycle := true;
                          lastResponseTime := lastResponseTime m;
                          pendingResponses := pendingResponses m + 1 |})).
  { unfold determineInitiator, expireIfTimedOut, timedOut.
    rewrite Hc. simpl. by rewrite Hc. }
  rewrite E.
  assert (F : markRequestFailed
                {| inCycle := true;
                   lastResponseTime := lastResponseTime m;
                   pendingResponses := pendingResponses m + 1 |} = m).
  { destruct m as [c l p]. simpl in *. subst c l p. reflexivity. }
  rewrite F, IH. done.
Qed.

Lemma failing_requests_are_all_billed_witness :
  serveAll [(10, Fails); (20, Fails); (30, Fails)] initial
  = ([User; User; User], initial).
Proof.
  apply (failing_requests_are_all_billed [10; 20; 30] initial); reflexivity.
Defined.

Lemma completing_requests_from (rs : list (Z * Z)) (m : BillingCycleManager) :
  inCycle m = true → pendingResponses m = 0 →
  fst (serveAll (map (λ r, (fst r, Completes (snd r))) rs) m)
  = billedAfterGap (Some (lastResponseTime m)) rs.
Proof.
  revert m. induction rs as [|[asked finished] rs IH]; intros m Hc Hp;
    [done|].
  simpl.
  pose proof (determineInitiator_verdict asked m) as V.
  pose proof (determineInitiator_opens asked m) as O.
  pose proof (pending_after_determine asked m) as P.
  destruct (determineInitiator asked m) as [v m1]. simpl in V, O, P.
  specialize (IH (markResponseComplete finished m1)).
  destruct (serveAll _ (markResponseComplete finished m1)) as [vs m2].
  simpl in *. rewrite IH; [|done|lia]. f_equal.
  rewrite V. unfold expireIfTimedOut, timedOut.
  rewrite Hc, Hp. simpl.
  destruct (asked - lastResponseTime m >? CYCLE_TIMEOUT_MS); simpl;
    by rewrite ?Hc.
Qed.

(** X5.  Requests that complete one after the other on a fresh manager: the
    first is billed, and a later one is billed exactly when it arrives
    more than five minutes after the completion of the one before. *)
Theorem sequential_traffic_billed_after_gap (rs : list (Z * Z)) :
  fst (serveAll (map (λ r, (fst r, Completes (snd r))) rs) initial)
  = billedAfterGap None rs.
Proof.
  destruct rs as [|[asked finished] rs]; [done|].
  simpl.
  pose proof (completing_requests_from rs
                (markResponseComplete finished
                   (snd (determineInitiator asked initial)))) as H.
  simpl in H.
  destruct (serveAll _ _) as [vs m2]. simpl in *.
  by rewrite H.
Qed.

End BillingTraffic.

Section LockOrder.
Import BillingCycle LockedBilling.

Local Open Scope nat_scope.

Lemma step_other (w w' : Runtime) (i j : nat) (now : Z) :
  step w (j, now) = Some w' → i ≠ j → tasks w' !! i = tasks w !! i.
Proof.
  intros H Hne.
  apply step_inv in H as [[Hj ->]|[(cur & rel & Hj & _ & ->)|[Hj ->]]];
    unfold callStart, resumeAcquire, resumeCritical.
  - simpl. by rewrite list_lookup_insert_ne.
  - simpl. by rewrite list_lookup_insert_ne.
  - destruct (determineInitiator now (manager w)). simpl.
    by rewrite list_lookup_insert_ne.
Qed.

Lemma firstWaits_step (k i : nat) (w w' : Runtime) (c : nat * Z) :
  firstWaits k i w → step w c = Some w' →
  firstWaits k i w' ∨ tasks w' !! i = Some (Returned User).
Proof.
  intros [C Hc Ht Hn] H. destruct c as [j now].
  pose proof H as H0.
  apply step_inv in H as [[Hj ->]|[(cur & rel & Hj & Hr & ->)|[Hj ->]]].
  - left.
    assert (Hij : i ≠ j) by (intros ->; by rewrite Hj in Ht).
    split.
    + by apply chained_callStart.
    + done.
    + by rewrite (step_other w _ i j now H0 Hij).
    + intros j' v. simpl. rewrite (lookup_update _ j j' _ _ Hj).
      case_decide; [done | apply Hn].
  - left.
    destruct (waiting_next k w C j cur rel Hj) as (-> & Hk & _).
    pose proof (proj1 (resolved_upto k w C cur) Hr) as Hle.
    assert (cur = k) as -> by lia.
    assert (j = i) as ->.
    { apply (ticket_unique k w C j i (S k)); [by rewrite Hj | done]. }
    split.
    + by apply (chained_resumeAcquire k i k (S k)).
    + done.
    + simpl. by rewrite (lookup_update _ i i _ _ Hj), decide_True.
    + intros j' v. simpl. rewrite (lookup_update _ i j' _ _ Hj).
      case_decide; [done | apply Hn].
  - right.
    assert (j = i) as ->.
    { apply (ticket_unique k w C j i (S k)); [by rewrite Hj | done]. }
    unfold resumeCritical. rewrite determineInitiator_closed by done.
    simpl. by rewrite (lookup_update _ i i _ _ Hj), decide_True.
Qed.

Lemma returned_stays (w w' : Runtime) (i : nat) (v : Initiator)
    (schedule : list (nat * Z)) :
  tasks w !! i = Some (Returned v) → run schedule w = Some w' →
  tasks w' !! i = Some (Returned v).
Proof.
  revert w. induction schedule as [|c rest IH]; intros w Hi H;
    simpl in H.
  - by inversion H; subst.
  - destruct (step w c) as [w1|] eqn:E; [|done].
    apply (IH w1); [|done]. destruct c as [j now].
    destruct (decide (i = j)) as [<-|Hne].
    + unfold step in E. by rewrite Hi in E.
    + by rewrite (step_other w w1 i j now E Hne).
Qed.

Lemma firstWaits_run (k i : nat) (w w' : Runtime)
    (schedule : list (nat * Z)) :
  firstWaits k i w → run schedule w = Some w' →
  (∃ k', firstWaits k' i w') ∨ tasks w' !! i = Some (Returned User).
Proof.
  revert w. induction schedule as [|c rest IH]; intros w F H; simpl in H.
  - inversion H; subst. left. by exists k.
  - destruct (step w c) as [w1|] eqn:E; [|done].
    destruct (firstWaits_step k i w w1 c F E) as [F1|R].
    + by apply (IH w1).
    + right. by apply (returned_stays w1 w' i User rest).
Qed.

(** X6.  The lock is granted in call order at its head: under every
    schedule, no invocation returns before the one that called first, and
    on a closed cycle that one is the one billed. *)
Theorem first_caller_is_billed
    (k : nat) (resolver : option nat) (n : nat) (m0 : BillingCycleManager)
    (i : nat) (now : Z) (schedule : list (nat * Z)) (w : Runtime) :
  inCycle m0 = false →
  run ((i, now) :: schedule) (settled k resolver n m0) = Some w →
  ∀ j v, tasks w !! j = Some (Returned v) →
         tasks w !! i = Some (Returned User).
Proof.
  intros Hc H. cbn [run] in H.
  destruct (step (settled k resolver n m0) (i, now)) as [w1|] eqn:E; [|done].
  pose proof E as E0.
  apply step_inv in E as [[Hi ->]|[(cur & rel & Hi & _ & _)|[Hi _]]];
    [| by apply lookup_replicate_1 in Hi as [? _]
     | by apply lookup_replicate_1 in Hi as [? _]].
  assert (F : firstWaits k i (callStart i (settled k resolver n m0))).
  { split.
    - apply chained_callStart; [apply chained_settled | done].
    - done.
    - simpl. rewrite (lookup_update _ i i _ _ Hi), decide_True by done.
      simpl. by rewrite length_replicate.
    - intros j v. simpl. rewrite (lookup_update _ i j _ _ Hi).
      case_decide; [done|]. intros Hj.
      by apply lookup_replicate_1 in Hj as [? _]. }
  destruct (firstWaits_run k i _ w schedule F H) as [[k' [_ _ _ Hn]]|R].
  - intros j v Hj. by destruct (Hn j v).
  - done.
Qed.

Lemma first_caller_is_billed_witness :
  ∃ w, run [(2, 5%Z); (0, 5%Z); (1, 5%Z); (2, 5%Z); (2, 6%Z);
            (0, 7%Z); (0, 7%Z)]
         (start 3 initial) = Some w
       ∧ tasks w !! 0 = Some (Returned Agent)
       ∧ tasks w !! 2 = Some (Returned User).
Proof.
  eexists. split; [reflexivity|]. split; [reflexivity|].
  apply (first_caller_is_billed 0 None 3 initial 2 5%Z
           [(0, 5%Z); (1, 5%Z); (2, 5%Z); (2, 6%Z); (0, 7%Z); (0, 7%Z)]
           _ eq_refl eq_refl 0 Agent).
  reflexivity.
Defined.

End LockOrder.

Section ApiKeyAdmission.
Import ApiKeyAuth.

Lemma prefix_bearer (a : string) :
  String.prefix "Bearer " a = true →
  a = String.append "Bearer " (slice 7 a).
Proof.
  intros H.
  do 7 (destruct a as [|? a]; [discriminate H|];
        simpl in H;
        match type of H with
        | (if ?d then _ else _) = true =>
            destruct d as [<-|]; [|discriminate H]
        end).
  unfold slice. simpl. by rewrite Nat.sub_0_r, substring_whole.
Qed.

(** X7.  The middleware lets a request through exactly when no key is
    configured (undefined or empty), or the [Authorization] header is
    ["Bearer "] followed by the configured key, or there is no
    Bearer-prefixed [Authorization] header and [X-API-Key] is the
    configured key; every other request is refused with status 401. *)
Theorem admitted_exactly_with_the_key
    (apiKey : option string) (req : Request) :
  (apiKeyAuth apiKey req = Next ↔
   truthy apiKey = false
   ∨ (∃ key, apiKey = Some key
        ∧ (Authorization req = Some (String.append "Bearer " key)
           ∨ (optStartsWith "Bearer " (Authorization req) = false
              ∧ X_API_Key req = Some key))))
  ∧ (apiKeyAuth apiKey req ≠ Next →
     apiKeyAuth apiKey req = HTTPException 401 "Invalid or missing API key").
Proof.
  split; [|unfold apiKeyAuth;
           destruct (negb (truthy apiKey)); [by intros []|];
           destruct (_ || _); [done | by intros []]].
  unfold apiKeyAuth. destruct (truthy apiKey) eqn:Hk; simpl negb; cbv iota;
    [|split; [by left | done]].
  destruct apiKey as [key|]; [|done].
  assert (Hne : key ≠ "") by by apply truthy_Some.
  unfold providedKey.
  destruct (optStartsWith "Bearer " (Authorization req)) eqn:Hb.
  - destruct (Authorization req) as [a|] eqn:Ha; [|done].
    simpl in Hb. simpl fmap. split.
    + destruct (bool_decide (Some (slice 7 a) = Some key)) eqn:E;
        [|by rewrite orb_true_r].
      apply bool_decide_eq_true in E. inversion E as [E'].
      intros _. right. exists (slice 7 a). split; [by rewrite E'|].
      left. f_equal. by apply prefix_bearer.
    + intros [?|(key' & [= <-] & [[= ->]|[? _]])]; [done| |done].
      rewrite slice_bearer, Hk, bool_decide_true; done.
  - split.
    + destruct (truthy (X_API_Key req)) eqn:Hx; [|done].
      rewrite Hx.
      destruct (bool_decide (X_API_Key req = Some key)) eqn:E; [|done].
      apply bool_decide_eq_true in E.
      intros _. right. exists key. split; [done|]. by right.
    + intros [?|(key' & [= <-] & [Ha|[_ Hx]])]; [done| |].
      * rewrite Ha in Hb. destruct key; vm_compute in Hb; done.
      * rewrite Hx, Hk. cbv iota. rewrite Hk, bool_decide_true; done.
Qed.

Lemma admitted_exactly_with_the_key_witness :
  apiKeyAuth (Some "secret")
    {| Authorization := Some "bearer secret"; X_API_Key := None |}
  = HTTPException 401 "Invalid or missing API key"
  ∧ apiKeyAuth (Some "secret")
      {| Authorization := Some "Bearer secret"; X_API_Key := Some "other" |}
    = Next.
Proof.
  split.
  - apply (admitted_exactly_with_the_key (Some "secret")
             {| Authorization := Some "bearer secret"; X_API_Key := None |}).
    vm_compute. discriminate.
  - apply (admitted_exactly_with_the_key (Some "secret")
             {| Authorization := Some "Bearer secret";
                X_API_Key := Some "other" |}).
    right. exists "secret". split; [reflexivity|]. left. reflexivity.
Defined.

End ApiKeyAdmission.

Section HeartbeatSessions.
Import Heartbeat.

Lemma session_unarmed (ts : list (bool * Z)) (h : SSEHeartbeatManager) :
  timer h = false → session ts h = (h, []).
Proof.
  intros Ht. induction ts as [|t ts IH]; [done|].
  simpl. unfold fire. by rewrite Ht, IH.
Qed.

(** X9.  A heartbeat that is disabled, by the environment or by the
    configuration object, never arms its timer: [start] changes nothing
    and no keepalive frame is ever written. *)
Theorem disabled_heartbeat_is_silent
    (env : Env) (c : PartialConfig) (now : Z) (ts : list (bool * Z)) :
  enabled (config (createHeartbeatManager env c)) = false →
  start now (createHeartbeatManager env c) = createHeartbeatManager env c
  ∧ session ts (start now (createHeartbeatManager env c))
    = (createHeartbeatManager env c, []).
Proof.
  intros E.
  assert (S : start now (createHeartbeatManager env c)
              = createHeartbeatManager env c).
  { unfold start. by rewrite E. }
  split; [done|]. rewrite S. by apply session_unarmed.
Qed.

Lemma disabled_heartbeat_is_silent_witness :
  let env := mkEnv None (Some "false") None in
  session [(true, 2000); (true, 4000)]
    (start 0 (createHeartbeatManager env noOverride))
  = (createHeartbeatManager env noOverride, []).
Proof.
  intros env.
  apply (disabled_heartbeat_is_silent env noOverride 0
           [(true, 2000); (true, 4000)]).
  reflexivity.
Defined.

Lemma tick_shape (ok : bool) (now : Z) (h : SSEHeartbeatManager) :
  timer h = true →
  let '(h1, acts) := tick ok now h in
  config h1 = config h ∧ startTime h1 = startTime h
  ∧ heartbeatCount h1 = heartbeatCount h + 1
  ∧ ((timer h1 = true ∧ (acts = [Wrote heartbeatFrame] ∨ acts = [WriteRejected]))
     ∨ (timer h1 = false ∧ ok = true
        ∧ 0 < maxConnectionDuration (config h)
        ∧ maxConnectionDuration (config h) < now - startTime h
        ∧ acts = [Wrote heartbeatFrame; TimerCleared; OnMaxDuration])).
Proof.
  intros Ht. unfold tick. destruct ok; simpl.
  - destruct (maxConnectionDuration (config h) >? 0) eqn:E1; simpl.
    + destruct (now - startTime h >? maxConnectionDuration (config h)) eqn:E2.
      * unfold stop. simpl. rewrite Ht. simpl.
        repeat split; try done. right.
        apply Z.gtb_gt in E1, E2. repeat split; (done || lia).
      * repeat split; try done. left. split; [done | by left].
    + repeat split; try done. left. split; [done | by left].
  - repeat split; try done. left. split; [done | by right].
Qed.

(** X11.  [heartbeatCount] counts the calls of [stream.write], resolved or
    rejected. *)
Theorem heartbeatCount_counts_write_attempts
    (ts : list (bool * Z)) (h : SSEHeartbeatManager) :
  heartbeatCount (fst (session ts h))
  = heartbeatCount h
    + Z.of_nat (length (List.filter isAttempt (snd (session ts h)))).
Proof.
  revert h. induction ts as [|t ts IH]; intros h; [simpl; lia|].
  simpl. unfold fire. destruct (timer h) eqn:Ht.
  - pose proof (tick_shape (fst t) (snd t) h Ht) as T.
    destruct (tick (fst t) (snd t) h) as [h1 a1].
    destruct T as (_ & _ & Tc & Ta).
    specialize (IH h1). destruct (session ts h1) as [h2 a2]. simpl in *.
    rewrite IH, Tc, List.filter_app, length_app.
    assert (length (List.filter isAttempt a1) = 1%nat) as ->; [|lia].
    by destruct Ta as [[_ [->| ->]]|(_ & _ & _ & _ & ->)].
  - rewrite (session_unarmed ts h Ht). simpl. lia.
Qed.

(** X12.  A session is not cut before its cap: while no tick comes later than
    [maxConnectionDuration] after the start, the timer stays armed and
    [onMaxDuration] is not called. *)
Theorem no_cut_before_the_cap
    (ts : list (bool * Z)) (h : SSEHeartbeatManager) :
  Forall (λ t, snd t - startTime h ≤ maxConnectionDuration (config h)) ts →
  timer (fst (session ts h)) = timer h
  ∧ List.filter isCut (snd (session ts h)) = [].
Proof.
  revert h. induction ts as [|t ts IH]; intros h F; [done|].
  apply Forall_cons in F as [Ft F].
  simpl. unfold fire. destruct (timer h) eqn:Ht.
  - pose proof (tick_shape (fst t) (snd t) h Ht) as T.
    destruct (tick (fst t) (snd t) h) as [h1 a1].
    destruct T as (Tc & Ts & _ & [[T1 Ta]|(_ & _ & _ & Hgt & _)]); [|lia].
    specialize (IH h1). rewrite Tc, Ts in IH. specialize (IH F).
    destruct (session ts h1) as [h2 a2]. simpl in *.
    destruct IH as [I1 I2]. rewrite List.filter_app, I2.
    split; [congruence|]. by destruct Ta as [->| ->].
  - by rewrite (session_unarmed ts h Ht).
Qed.

Lemma no_cut_before_the_cap_witness :
  let h := start 0 (createHeartbeatManager (mkEnv None None None)
                      (mkPartial (Some 50) None (Some 120))) in
  timer (fst (session [(true, 50); (false, 100); (true, 120)] h)) = true.
Proof.
  intros h.
  apply (no_cut_before_the_cap [(true, 50); (false, 100); (true, 120)] h).
  repeat constructor; vm_compute; discriminate.
Defined.

(** X13.  The duration check runs only behind a write that resolved: a session
    whose writes are all rejected is never cut, whatever its cap and
    however long it lasts. *)
Theorem rejected_writes_skip_the_cap
    (ts : list (bool * Z)) (h : SSEHeartbeatManager) :
  Forall (λ t, fst t = false) ts →
  timer (fst (session ts h)) = timer h
  ∧ List.filter isCut (snd (session ts h)) = [].
Proof.
  revert h. induction ts as [|t ts IH]; intros h F; [done|].
  apply Forall_cons in F as [Ft F].
  simpl. unfold fire. destruct (timer h) eqn:Ht.
  - pose proof (tick_shape (fst t) (snd t) h Ht) as T.
    destruct (tick (fst t) (snd t) h) as [h1 a1].
    destruct T as (_ & _ & _ & [[T1 Ta]|(_ & Hok & _)]); [|congruence].
    specialize (IH h1 F).
    destruct (session ts h1) as [h2 a2]. simpl in *.
    destruct IH as [I1 I2]. rewrite List.filter_app, I2.
    split; [congruence|]. by destruct Ta as [->| ->].
  - by rewrite (session_unarmed ts h Ht).
Qed.

Lemma rejected_writes_skip_the_cap_witness :
  let h := start 0 (createHeartbeatManager (mkEnv None None None)
                      (mkPartial (Some 50) None (Some 120))) in
  timer (fst (session [(false, 500); (false, 900000)] h)) = true.
Proof.
  intros h.
  apply (rejected_writes_skip_the_cap [(false, 500); (false, 900000)] h).
  repeat constructor.
Defined.





End HeartbeatSessions.

Section HeartbeatLoopFacts.
Import HeartbeatLoop.

Local Open Scope nat_scope.

(** Module [Heartbeat] is this model with every callback run to its end
    before anything else: [start] and [stop] act on the manager alike,
    and a firing whose write settles at once is [Heartbeat.tick]. *)
Lemma uninterrupted_callback_is_tick
    (s : Loop) (h : nat) (ok : bool) (now : Z) :
  timer s = Some h → h ∈ intervals s →
  manager (start now s) = Heartbeat.start now (manager s)
  ∧ manager (fst (stop s)) = fst (Heartbeat.stop (manager s))
  ∧ ∃ s', run [IntervalFires h; WriteSettles ok now] s
          = Some (s', callOf h <$> snd (Heartbeat.tick ok now (manager s)))
          ∧ manager s' = fst (Heartbeat.tick ok now (manager s))
          ∧ waiting s' = waiting s.
Proof.
  intros Ht Hh. split; [|split].
  - unfold start, Heartbeat.start, manager. simpl.
    destruct (Heartbeat.enabled (config s)); simpl; [done|].
    by rewrite Ht.
  - unfold stop, Heartbeat.stop, manager. by rewrite Ht.
  - cbn [run step]. rewrite bool_decide_true by done.
    cbn [callbackBegin waiting].
    unfold callbackResume, Heartbeat.tick, manager, stop. simpl.
    rewrite Ht. destruct ok; simpl.
    + destruct ((Heartbeat.maxConnectionDuration (config s) >? 0)%Z
                && (now - startTime s
                    >? Heartbeat.maxConnectionDuration (config s))%Z);
        simpl; eexists; (split; [reflexivity|]); by rewrite ?Ht.
    + eexists. by split; [reflexivity|].
Qed.

Lemma holds_nothing (s : Loop) :
  holdsItsIntervals s → timer s = None → intervals s = [].
Proof.
  intros I Ht. apply elem_of_nil_inv. intros h Hh.
  specialize (I h Hh). congruence.
Qed.

Lemma stop_clears (s : Loop) :
  holdsItsIntervals s →
  timer (fst (stop s)) = None ∧ intervals (fst (stop s)) = [].
Proof.
  intros I. unfold stop. destruct (timer s) as [h|] eqn:Ht; simpl.
  - split; [done|]. apply elem_of_nil_inv. intros i Hi.
    apply list_elem_of_filter in Hi as [Hne Hi].
    specialize (I i Hi). congruence.
  - split; [done | by apply holds_nothing].
Qed.

(** What one job other than [start] does: a firing writes; anything
    else either leaves the intervals alone and calls at most
    [onMaxDuration], or clears the interval the manager holds. *)
Lemma step_shape (s s1 : Loop) (e : Event) (c1 : list Call) :
  isStartCalled e = false →
  step s e = Some (s1, c1) →
  (∃ h, h ∈ intervals s ∧ timer s1 = timer s
        ∧ intervals s1 = intervals s
        ∧ c1 = [StreamWrite Heartbeat.heartbeatFrame])
  ∨ (timer s1 = timer s ∧ intervals s1 = intervals s
     ∧ heartbeatCount s1 = heartbeatCount s
     ∧ forallb isOnMaxDuration c1 = true)
  ∨ (∃ h rest, timer s = Some h ∧ timer s1 = None
               ∧ intervals s1 = filter (λ i, i ≠ h) (intervals s)
               ∧ heartbeatCount s1 = heartbeatCount s
               ∧ c1 = ClearInterval h :: rest
               ∧ forallb isOnMaxDuration rest = true).
Proof.
  intros We R. destruct e as [now| |h|ok now]; [done| | |]; cbn [step] in R.
  - unfold stop in R. destruct (timer s) as [h|] eqn:Ht.
    + inversion R; subst. right. right. by exists h, [].
    + inversion R; subst. right. by left.
  - destruct (bool_decide (h ∈ intervals s)) eqn:Hh; [|done].
    apply bool_decide_eq_true in Hh.
    inversion R; subst. left. by exists h.
  - destruct (waiting s) as [|n]; [done|].
    unfold callbackResume, stop in R. simpl in R.
    destruct (negb ok); [inversion R; subst; right; by left|].
    destruct ((Heartbeat.maxConnectionDuration (config s) >? 0)%Z && _)%Z;
      [|inversion R; subst; right; by left].
    destruct (timer s) as [h|] eqn:Ht; inversion R; subst.
    + right. right. by exists h, [OnMaxDuration].
    + right. by left.
Qed.

(** Once the manager holds no interval and none is live, nothing but
    [onMaxDuration] of callbacks still waiting is called. *)
Lemma run_cleared (es : list Event) (s s' : Loop) (calls : list Call) :
  timer s = None → intervals s = [] →
  withoutStart es = true →
  run es s = Some (s', calls) →
  timer s' = None ∧ intervals s' = []
  ∧ heartbeatCount s' = heartbeatCount s
  ∧ forallb isOnMaxDuration calls = true.
Proof.
  revert s calls. induction es as [|e es IH]; intros s calls Ht Hi W R.
  - simpl in R. by inversion R; subst.
  - cbn [withoutStart forallb] in W. apply andb_prop in W as [We W].
    apply negb_true_iff in We.
    cbn [run] in R.
    destruct (step s e) as [[s1 c1]|] eqn:E; [|done].
    destruct (run es s1) as [[s2 c2]|] eqn:R2; [|done].
    inversion R; subst. clear R.
    destruct (step_shape s s1 e c1 We E)
      as [(h & Hh & _)|[(T1 & I1 & C1 & Q1)|(h & rest & Hs & _)]].
    + rewrite Hi in Hh. by apply not_elem_of_nil in Hh.
    + destruct (IH s1 c2) as (A & B & C & D); [congruence..|done|done|].
      rewrite forallb_app, Q1, D. repeat split; congruence.
    + congruence.
Qed.

Lemma step_holds (s s1 : Loop) (e : Event) (c1 : list Call) :
  holdsItsIntervals s → isStartCalled e = false →
  step s e = Some (s1, c1) →
  holdsItsIntervals s1.
Proof.
  intros I We E.
  destruct (step_shape s s1 e c1 We E)
    as [(h & _ & T1 & I1 & _)|[(T1 & I1 & _)|(h & rest & Hs & T1 & I1 & _)]].
  - intros i Hi. rewrite T1. apply I. by rewrite <- I1.
  - intros i Hi. rewrite T1. apply I. by rewrite <- I1.
  - intros i Hi. rewrite I1 in Hi.
    apply list_elem_of_filter in Hi as [Hne Hi].
    specialize (I i Hi). congruence.
Qed.

Lemma quietAfterClear_cleared (calls : list Call) :
  forallb isOnMaxDuration calls = true → quietAfterClear calls = true.
Proof.
  induction calls as [|c calls IH]; [done|].
  simpl. intros H. apply andb_prop in H as [Hc H].
  destruct c; try done. by apply IH.
Qed.

Lemma quietAfterClear_behind (c1 c2 : list Call) :
  forallb isOnMaxDuration c1 = true →
  quietAfterClear (c1 ++ c2) = quietAfterClear c2.
Proof.
  induction c1 as [|c c1 IH]; [done|].
  simpl. intros H. apply andb_prop in H as [Hc H].
  destruct c; try done. by apply IH.
Qed.

Lemma quietAfterClear_split (calls before after : list Call) (h : nat) :
  quietAfterClear calls = true →
  calls = before ++ ClearInterval h :: after →
  forallb isOnMaxDuration after = true.
Proof.
  revert calls. induction before as [|b before IH]; intros calls Q ->.
  - exact Q.
  - destruct b; simpl in Q.
    + by apply (IH _ Q).
    + rewrite forallb_app in Q. apply andb_prop in Q as [_ Q]. done.
    + by apply (IH _ Q).
Qed.

Lemma run_quietAfterClear (es : list Event) (s s' : Loop)
    (calls : list Call) :
  holdsItsIntervals s → withoutStart es = true →
  run es s = Some (s', calls) →
  quietAfterClear calls = true ∧ holdsItsIntervals s'.
Proof.
  revert s calls. induction es as [|e es IH]; intros s calls I W R.
  - simpl in R. by inversion R; subst.
  - cbn [withoutStart forallb] in W. apply andb_prop in W as [We W].
    apply negb_true_iff in We.
    cbn [run] in R.
    destruct (step s e) as [[s1 c1]|] eqn:E; [|done].
    pose proof (step_holds s s1 e c1 I We E) as I1.
    destruct (run es s1) as [[s2 c2]|] eqn:R2; [|done].
    inversion R; subst. clear R.
    destruct (IH s1 c2 I1 W R2) as [Q2 I2]. split; [|done].
    destruct (step_shape s s1 e c1 We E)
      as [(h & _ & _ & _ & ->)|[(_ & _ & _ & Q1)
                               |(h & rest & _ & T1 & _ & _ & -> & Q1)]].
    + exact Q2.
    + by rewrite quietAfterClear_behind.
    + simpl. rewrite forallb_app, Q1. simpl.
      by destruct (run_cleared es s1 s' c2 T1
                     (holds_nothing s1 I1 T1) W R2) as (_ & _ & _ & D).
Qed.

Lemma run_onMaxDuration_bound (es : list Event) (s s' : Loop)
    (calls : list Call) :
  run es s = Some (s', calls) →
  length (List.filter isOnMaxDuration calls)
  ≤ waiting s + length (List.filter isStreamWrite calls).
Proof.
  revert s calls. induction es as [|e es IH]; intros s calls R.
  - simpl in R. inversion R; subst. simpl. lia.
  - cbn [run] in R.
    destruct (step s e) as [[s1 c1]|] eqn:E; [|done].
    destruct (run es s1) as [[s2 c2]|] eqn:R2; [|done].
    inversion R; subst. clear R.
    specialize (IH s1 c2 R2).
    rewrite !List.filter_app, !length_app.
    destruct e as [now| |h|ok now]; cbn [step] in E.
    + inversion E; subst. unfold start in IH.
      destruct (negb _); simpl in *; lia.
    + unfold stop in E. destruct (timer s); inversion E; subst; simpl in *; lia.
    + destruct (bool_decide (h ∈ intervals s)); [|done].
      inversion E; subst. simpl in *. lia.
    + destruct (waiting s) as [|n] eqn:Hw; [done|].
      unfold callbackResume, stop in E. cbn [timer] in E.
      destruct (negb ok); [inversion E; subst; simpl in *; lia|].
      destruct ((Heartbeat.maxConnectionDuration _ >? 0)%Z && _)%Z;
        [|inversion E; subst; simpl in *; lia].
      destruct (timer s); inversion E; subst; simpl in *; lia.
Qed.

Lemma cleared_filters (calls : list Call) :
  forallb isOnMaxDuration calls = true →
  List.filter isStreamWrite calls = []
  ∧ List.filter isClearInterval calls = [].
Proof.
  induction calls as [|c calls IH]; [done|].
  simpl. intros H. apply andb_prop in H as [Hc H].
  destruct c; try done. by apply IH.
Qed.

Lemma quietAfterClear_once (calls : list Call) :
  quietAfterClear calls = true →
  length (List.filter isClearInterval calls) ≤ 1.
Proof.
  induction calls as [|c calls IH]; [simpl; lia|].
  simpl. intros Q. destruct c; simpl.
  - by apply IH.
  - destruct (cleared_filters calls Q) as [_ ->]. simpl. lia.
  - by apply IH.
Qed.

(** The interval that is cleared is the one the manager holds. *)
Lemma run_clears_held (es : list Event) (s s' : Loop) (calls : list Call)
    (h : nat) :
  holdsItsIntervals s → withoutStart es = true →
  run es s = Some (s', calls) →
  ClearInterval h ∈ calls → timer s = Some h.
Proof.
  revert s calls. induction es as [|e es IH]; intros s calls I W R Hin.
  - simpl in R. inversion R; subst. by apply not_elem_of_nil in Hin.
  - cbn [withoutStart forallb] in W. apply andb_prop in W as [We W].
    apply negb_true_iff in We.
    cbn [run] in R.
    destruct (step s e) as [[s1 c1]|] eqn:E; [|done].
    pose proof (step_holds s s1 e c1 I We E) as I1.
    destruct (run es s1) as [[s2 c2]|] eqn:R2; [|done].
    inversion R; subst. clear R.
    apply elem_of_app in Hin.
    destruct (step_shape s s1 e c1 We E)
      as [(i & _ & T1 & _ & ->)|[(T1 & _ & _ & Q1)
                               |(i & rest & Hs & T1 & _ & _ & -> & Q1)]].
    + destruct Hin as [Hin|Hin].
      * apply list_elem_of_singleton in Hin. done.
      * rewrite <- T1. by apply (IH s1 c2).
    + destruct Hin as [Hin|Hin].
      * destruct (cleared_filters c1 Q1) as [_ F].
        assert (Hf : ClearInterval h ∈ List.filter isClearInterval c1).
        { apply list_elem_of_In, List.filter_In. split; [|done].
          by apply list_elem_of_In. }
        rewrite F in Hf. by apply not_elem_of_nil in Hf.
      * rewrite <- T1. by apply (IH s1 c2).
    + destruct (run_cleared es s1 s' c2 T1 (holds_nothing s1 I1 T1) W R2)
        as (_ & _ & _ & D).
      assert (Q : forallb isOnMaxDuration (rest ++ c2) = true).
      { by rewrite forallb_app, Q1, D. }
      destruct Hin as [Hin|Hin].
      * apply elem_of_cons in Hin as [Hin|Hin]; [congruence|].
        destruct (cleared_filters rest Q1) as [_ F].
        assert (Hf : ClearInterval h ∈ List.filter isClearInterval rest).
        { apply list_elem_of_In, List.filter_In. split; [|done].
          by apply list_elem_of_In. }
        rewrite F in Hf. by apply not_elem_of_nil in Hf.
      * destruct (cleared_filters c2 D) as [_ F].
        assert (Hf : ClearInterval h ∈ List.filter isClearInterval c2).
        { apply list_elem_of_In, List.filter_In. split; [|done].
          by apply list_elem_of_In. }
        rewrite F in Hf. by apply not_elem_of_nil in Hf.
Qed.

(** X8.  [stop] leaves the manager without interval, and a second call
    does nothing; so does a call on a manager that holds none.  When the
    manager holds every live interval, as after one [start], no interval
    is live after [stop], and until [start] is called again nothing is
    written to the stream and nothing counted: all that can still happen
    is [onMaxDuration], called by a callback that was waiting for its
    write when [stop] came. *)
Theorem stop_is_final (s : Loop) :
  let s1 := fst (stop s) in
  timer s1 = None
  ∧ stop s1 = (s1, [])
  ∧ (timer s = None → stop s = (s, []))
  ∧ (holdsItsIntervals s →
     intervals s1 = []
     ∧ ∀ es s2 calls,
         withoutStart es = true →
         run es s1 = Some (s2, calls) →
         forallb isOnMaxDuration calls = true
         ∧ heartbeatCount s2 = heartbeatCount s
         ∧ timer s2 = None ∧ intervals s2 = []).
Proof.
  intros s1.
  assert (T : timer s1 = None).
  { unfold s1, stop. by destruct (timer s) eqn:E. }
  split; [done|]. split; [|split].
  - unfold stop at 1. by rewrite T.
  - intros E. unfold stop. by rewrite E.
  - intros I. destruct (stop_clears s I) as [_ Hi]. split; [done|].
    intros es s2 calls W R.
    destruct (run_cleared es s1 s2 calls T Hi W R) as (A & B & C & D).
    repeat split; try done.
    rewrite C. unfold s1, stop. by destruct (timer s).
Qed.

Lemma stop_is_final_witness :
  let s :=
    fst (callbackBegin
           (start 0 (createHeartbeatManager
                       (Heartbeat.mkEnv None None None)
                       (Heartbeat.mkPartial (Some 50%Z) None (Some 120%Z))))) in
  ∃ s2, run [WriteSettles true 150; StopCalled] (fst (stop s))
        = Some (s2, [OnMaxDuration])
        ∧ heartbeatCount s2 = 1%Z ∧ timer s2 = None ∧ intervals s2 = [].
Proof.
  intros s. eexists. split; [reflexivity|].
  destruct (stop_is_final s) as (_ & _ & _ & H).
  assert (I : holdsItsIntervals s).
  { intros h Hh. apply list_elem_of_singleton in Hh. by subst. }
  destruct (H I) as [_ H2].
  destruct (H2 [WriteSettles true 150; StopCalled] _ _ eq_refl eq_refl)
    as (_ & A & B & C).
  done.
Defined.

(** A manager that is started twice without [stop] in between leaks its
    first interval: [stop] clears the second only, and the first keeps
    writing. *)
Example second_start_leaks_the_first_interval :
  let s0 := createHeartbeatManager (Heartbeat.mkEnv None None None)
              Heartbeat.noOverride in
  ∃ s, run [StartCalled 0; StartCalled 10; StopCalled;
            IntervalFires 0; WriteSettles true 2000] s0
       = Some (s, [ClearInterval 1; StreamWrite Heartbeat.heartbeatFrame])
       ∧ timer s = None ∧ intervals s = [0].
Proof. eexists. repeat split. Qed.

(** X10.  Between two calls of [start], on a manager that holds every
    live interval, the interval is cleared at most once and nothing is
    written after that: behind a [clearInterval] come only calls of
    [onMaxDuration].  These are at most one per callback, so at most as
    many as there were callbacks waiting at the beginning and writes
    since, and not at most one per session: see the example below. *)
Theorem interval_is_cleared_at_most_once
    (es : list Event) (s s' : Loop) (calls : list Call) :
  holdsItsIntervals s → withoutStart es = true →
  run es s = Some (s', calls) →
  (∀ before h after,
     calls = before ++ ClearInterval h :: after →
     timer s = Some h
     ∧ List.filter isStreamWrite after = []
     ∧ List.filter isClearInterval after = [])
  ∧ length (List.filter isClearInterval calls) ≤ 1
  ∧ length (List.filter isOnMaxDuration calls)
    ≤ waiting s + length (List.filter isStreamWrite calls)
  ∧ holdsItsIntervals s'.
Proof.
  intros I W R.
  destruct (run_quietAfterClear es s s' calls I W R) as [Q I'].
  split; [|split; [|split]].
  - intros before h after E. split.
    + apply (run_clears_held es s s' calls h I W R).
      rewrite E. apply elem_of_app. right. apply elem_of_cons. by left.
    + apply cleared_filters.
      by apply (quietAfterClear_split calls before after h).
  - by apply quietAfterClear_once.
  - by apply (run_onMaxDuration_bound es s s').
  - done.
Qed.

Lemma interval_is_cleared_at_most_once_witness :
  let s := start 0 (createHeartbeatManager
                      (Heartbeat.mkEnv None None None)
                      (Heartbeat.mkPartial (Some 50%Z) None (Some 120%Z))) in
  ∃ s', run [IntervalFires 0; WriteSettles true 50;
             IntervalFires 0; WriteSettles true 150; StopCalled] s
        = Some (s', [StreamWrite Heartbeat.heartbeatFrame;
                     StreamWrite Heartbeat.heartbeatFrame;
                     ClearInterval 0; OnMaxDuration])
        ∧ holdsItsIntervals s'.
Proof.
  intros s. eexists. split; [reflexivity|].
  assert (I : holdsItsIntervals s).
  { intros h Hh. apply list_elem_of_singleton in Hh. by subst. }
  by destruct (interval_is_cleared_at_most_once
                 [IntervalFires 0; WriteSettles true 50;
                  IntervalFires 0; WriteSettles true 150; StopCalled]
                 s _ _ I eq_refl eq_refl) as (_ & _ & _ & H).
Defined.

(** Two callbacks of one interval that overlap: the second fires while
    the first waits for its write, both writes settle past the cap, and
    [onMaxDuration] is called twice for one session. *)
Example overlapping_callbacks_both_call_onMaxDuration :
  let s := start 0 (createHeartbeatManager
                      (Heartbeat.mkEnv None None None)
                      (Heartbeat.mkPartial (Some 50%Z) None (Some 120%Z))) in
  ∃ s', run [IntervalFires 0; IntervalFires 0;
             WriteSettles true 150; WriteSettles true 160] s
        = Some (s', [StreamWrite Heartbeat.heartbeatFrame;
                     StreamWrite Heartbeat.heartbeatFrame;
                     ClearInterval 0; OnMaxDuration; OnMaxDuration])
        ∧ heartbeatCount s' = 2%Z ∧ timer s' = None ∧ intervals s' = [].
Proof. eexists. repeat split. Qed.

End HeartbeatLoopFacts.

Section StreamForwarding.
Import Handlers.

Local Open Scope nat_scope.

Variable sink : nat → option Exn.
Variable now : Z.

(** X15.  The chat-completions loop writes the backend's chunks in the order
    they were yielded, each once and unchanged: what it has written is
    always a prefix of the chunks yielded, it is all of them when the loop
    ends without error, and the loop calls nothing else. *)
Theorem forward_writes_chunks_in_order (pulls : list Pull) (w : World) :
  let '(w', r) := forward sink pulls w in
  ∃ n, trace w' = trace w ++ (WriteSSE <$> take n (yielded pulls))
       ∧ writes w' = writes w + n
       ∧ billing w' = billing w
       ∧ (r = inr tt →
          take n (yielded pulls) = yielded pulls
          ∧ length (yielded pulls) = length pulls).
Proof.
  revert w. induction pulls as [|[chunk|e] rest IH]; intros w.
  - exists 0. simpl. rewrite app_nil_r. repeat split; lia.
  - simpl. unfold mbind, M_bind, writeSSE.
    destruct (sink (writes w)) as [e|].
    + exists 1. simpl. rewrite take_0. repeat split; (done || lia).
    + specialize (IH {| billing := billing w;
                        trace := trace w ++ [WriteSSE chunk];
                        writes := S (writes w) |}).
      destruct (forward sink rest _) as [w' r].
      destruct IH as (n & I1 & I2 & I3 & I4). simpl in *.
      exists (S n). rewrite I1, I2, I3, <- app_assoc. simpl.
      repeat split; try lia.
      * destruct (I4 H) as [-> _]. done.
      * destruct (I4 H) as [_ ->]. done.
  - exists 0. simpl. rewrite app_nil_r. repeat split; (done || lia).
Qed.

Section MessagesLoop.
Context {Chunk StreamState AnthropicEvent : Type}.
Variable JSON_parse : string → Exn + Chunk.
Variable translateChunkToAnthropicEvents :
  Chunk → StreamState → Exn + (list AnthropicEvent * StreamState).
Variable eventType : AnthropicEvent → string.
Variable JSON_stringify : AnthropicEvent → string.
Variable translateToAnthropic : gmap string string → Exn + gmap string string.
Variable streamState0 : StreamState.

(** X17.  The messages loop stops at the ["[DONE]"] sentinel: whatever the
    backend yields or throws after it is never pulled, translated or
    written. *)
Theorem pump_stops_at_done
    (st : StreamState) (before after : list Pull) (ev : option string)
    (w : World) :
  pump sink JSON_parse translateChunkToAnthropicEvents eventType
    JSON_stringify st
    (before ++ Yields {| event := ev; data := Some "[DONE]" |} :: after) w
  = pump sink JSON_parse translateChunkToAnthropicEvents eventType
      JSON_stringify st before w.
Proof.
  revert st w. induction before as [|[rawEvent|e] rest IH]; intros st w.
  - done.
  - simpl. destruct (data rawEvent) as [d|]; [|apply IH].
    destruct (String.eqb d "[DONE]"); [done|].
    destruct (String.eqb d ""); [apply IH|].
    unfold mbind, M_bind.
    destruct (liftExn (JSON_parse d) w) as [w1 [x|chunk]]; [done|].
    destruct (liftExn (translateChunkToAnthropicEvents chunk st) w1)
      as [w2 [x|r]]; [done|].
    destruct (writeEvents sink eventType JSON_stringify (fst r) w2)
      as [w3 [x|[]]]; [done|].
    apply IH.
  - done.
Qed.

(** X18.  Events without data are transparent to the messages loop: removing
    every event whose [data] is absent or empty from the backend's
    sequence changes neither what is written nor how the loop ends. *)
Theorem pump_ignores_empty_events
    (st : StreamState) (pulls : list Pull) (w : World) :
  pump sink JSON_parse translateChunkToAnthropicEvents eventType
    JSON_stringify st pulls w
  = pump sink JSON_parse translateChunkToAnthropicEvents eventType
      JSON_stringify st (List.filter carriesData pulls) w.
Proof.
  revert st w. induction pulls as [|[rawEvent|e] rest IH]; intros st w.
  - done.
  - simpl. destruct (data rawEvent) as [d|] eqn:D; [|apply IH].
    destruct (String.eqb d "") eqn:E.
    + apply String.eqb_eq in E as ->. simpl. apply IH.
    + simpl. rewrite D.
      destruct (String.eqb d "[DONE]"); [done|]. rewrite E.
      unfold mbind, M_bind.
      destruct (liftExn (JSON_parse d) w) as [w1 [x|chunk]]; [done|].
      destruct (liftExn (translateChunkToAnthropicEvents chunk st) w1)
        as [w2 [x|r]]; [done|].
      destruct (writeEvents sink eventType JSON_stringify (fst r) w2)
        as [w3 [x|[]]]; [done|].
      apply IH.
  - done.
Qed.


(** X19.  A streamed request leaves [pendingResponses] as it found it, however
    the stream ends: after [determineInitiator] and the streaming
    callback of either handler the counter is back at its value before
    the request. *)
Theorem streamed_request_settles_pending
    (pulls : list Pull) (m : BillingCycle.BillingCycleManager) (asked : Z) :
  (0 ≤ BillingCycle.pendingResponses m)%Z →
  let m1 := snd (BillingCycle.determineInitiator asked m) in
  BillingCycle.pendingResponses
    (billing (fst (streamCompletion sink now pulls (emptyWorld m1))))
  = BillingCycle.pendingResponses m
  ∧ BillingCycle.pendingResponses
      (billing (fst (streamMessages sink now JSON_parse
                       translateChunkToAnthropicEvents eventType
                       JSON_stringify streamState0 pulls (emptyWorld m1))))
    = BillingCycle.pendingResponses m.
Proof.
  intros Hp m1.
  assert (P : BillingCycle.pendingResponses m1
              = (BillingCycle.pendingResponses m + 1)%Z)
    by apply pending_after_determine.
  split.
  - pose proof (callback_outcome now (forward sink pulls) m1
                  (forward_writesOnly sink pulls)) as H.
    unfold streamCompletion.
    destruct (tryCatchFinally _ _ _ _) as [w r].
    destruct H as (_ & H & _). simpl.
    destruct r; destruct H as (_ & _ & ->); simpl; lia.
  - pose proof (callback_outcome now
                  (pump sink JSON_parse translateChunkToAnthropicEvents
                     eventType JSON_stringify streamState0 pulls) m1
                  (pump_writesOnly sink _ _ _ _ _ pulls)) as H.
    unfold streamMessages.
    destruct (tryCatchFinally _ _ _ _) as [w r].
    destruct H as (_ & H & _). simpl.
    destruct r; destruct H as (_ & _ & ->); simpl; lia.
Qed.

(** X20.  In the messages handler too, a complete response is answered
    without any call on the billing manager or the heartbeat: the world
    is as the backend call left it, and the reply is the translated body,
    or the error [translateToAnthropic] throws. *)
Theorem messages_reply_calls_no_billing_hook
    (dispatch : M BackendValue) (w w1 : World) (response : BackendValue) :
  dispatch w = (w1, inr response) →
  isNonStreaming response = true →
  handleMessages sink now JSON_parse translateChunkToAnthropicEvents
    eventType JSON_stringify translateToAnthropic streamState0 dispatch w
  = (w1, match translateToAnthropic (ownProperties response) with
         | inl e => inl e
         | inr body => inr (Json body)
         end).
Proof.
  intros Hd Hn. unfold handleMessages, replyMessages, mbind, M_bind.
  rewrite Hd, Hn.
  by destruct (translateToAnthropic (ownProperties response)).
Qed.

End MessagesLoop.

Section FrontFacts.
Variable checkRateLimit : M unit.
Variable readBody : M ChatCompletionsPayload.
Variable models : option (list ModelInfo).
Variable manualApprove : bool.
Variable awaitApproval : M unit.
Variable createChatCompletions : ChatCompletionsPayload → M BackendValue.

Lemma countTokens_quiet
    (getTokenCount : ChatCompletionsPayload → ModelInfo → M Z)
    (payload : ChatCompletionsPayload) (selected : option ModelInfo)
    (w : World) :
  (∀ p m w, fst (getTokenCount p m w) = w) →
  countTokens getTokenCount payload selected w = (w, inr tt).
Proof.
  intros Q. unfold countTokens, tryCatchFinally, mbind, M_bind.
  destruct selected as [m|]; [|done].
  specialize (Q payload m w).
  destruct (getTokenCount payload m w) as [w1 [e|n]]; simpl in *;
    by subst w1.
Qed.

(** X21.  The token count cannot fail or alter a request: with a token counter
    that leaves the world alone, the handler does the same whether the
    counter returns a number or throws. *)
Theorem token_count_failure_is_not_fatal
    (getTokenCount : ChatCompletionsPayload → ModelInfo → M Z)
    (e : Exn) (w : World) :
  (∀ p m w, fst (getTokenCount p m w) = w) →
  handleCompletionRequest sink now checkRateLimit readBody models
    getTokenCount manualApprove awaitApproval createChatCompletions w
  = handleCompletionRequest sink now checkRateLimit readBody models
      (λ _ _, throw e) manualApprove awaitApproval createChatCompletions w.
Proof.
  intros Q. unfold handleCompletionRequest, mbind, M_bind.
  destruct (checkRateLimit w) as [w1 [x|[]]]; [done|].
  destruct (readBody w1) as [w2 [x|payload]]; [done|].
  rewrite (countTokens_quiet getTokenCount _ _ w2 Q).
  rewrite (countTokens_quiet (λ _ _, throw e) _ _ w2); done.
Qed.

End FrontFacts.
End StreamForwarding.

Section HandlerFurtherInstances.
Import Handlers.

Lemma messages_reply_calls_no_billing_hook_witness :
  let sink : nat → option Exn := λ _, None in
  let complete := {| ownProperties := {["choices" := "[]"]}; items := [] |} in
  let dispatch : M BackendValue :=
    λ w, (record HeartbeatStart w, inr complete) in
  handleMessages sink 9 (λ s : string, inr s)
    (λ (c : string) (st : unit), inr ([c], st))
    (λ ev : string, ev) (λ ev : string, ev)
    (λ _, inl "bad response") tt dispatch
    (emptyWorld BillingCycle.initial)
  = (record HeartbeatStart (emptyWorld BillingCycle.initial),
     inl "bad response").
Proof.
  intros sink complete dispatch.
  apply (messages_reply_calls_no_billing_hook sink 9 (λ s : string, inr s)
           (λ (c : string) (st : unit), inr ([c], st))
           (λ ev : string, ev) (λ ev : string, ev)
           (λ _, inl "bad response") tt dispatch
           (emptyWorld BillingCycle.initial) _ complete);
    reflexivity.
Defined.

Lemma streamed_request_settles_pending_witness :
  let sink : nat → option Exn := λ k, if Nat.eqb k 1 then Some "EPIPE" else None in
  let chunk d := Yields {| event := None; data := Some d |} in
  BillingCycle.pendingResponses
    (billing (fst (streamCompletion sink 99 [chunk "a"; chunk "b"]
                     (emptyWorld
                        (snd (BillingCycle.determineInitiator 10
                                BillingCycle.initial))))))
  = 0%Z.
Proof.
  intros sink chunk.
  apply (streamed_request_settles_pending sink 99 (λ s : string, inr s)
           (λ (c : string) (st : unit), inr ([c], st))
           (λ ev : string, ev) (λ ev : string, ev) tt
           [chunk "a"; chunk "b"] BillingCycle.initial 10).
  reflexivity.
Defined.

Lemma token_count_failure_is_not_fatal_witness :
  let sink : nat → option Exn := λ _, None in
  let body := {| model := "gpt-test"; max_tokens := None; others := ∅ |} in
  let backend (p : ChatCompletionsPayload) : M BackendValue :=
    mret {| ownProperties := {["choices" := "[]"]}; items := [] |} in
  let models := Some [ {| model_id := "gpt-test";
                          max_output_tokens := Some 4096 |} ] in
  handleCompletionRequest sink 9 (mret tt) (mret body) models
    (λ _ _, mret 12) false (mret tt) backend
    (emptyWorld BillingCycle.initial)
  = handleCompletionRequest sink 9 (mret tt) (mret body) models
      (λ _ _, throw "tokenizer") false (mret tt) backend
      (emptyWorld BillingCycle.initial).
Proof.
  intros sink body backend models.
  apply (token_count_failure_is_not_fatal sink 9). done.
Defined.

End HandlerFurtherInstances.

Section EntrypointFacts.
Import Entrypoint.

Lemma string_app_cons (c : ascii) (s t : string) :
  String c s +:+ t = String c (s +:+ t).
Proof. reflexivity. Qed.

Lemma string_app_nil_r (s : string) : s +:+ "" = s.
Proof.
  induction s as [|c s IH]; [done|]. by rewrite string_app_cons, IH.
Qed.

Lemma string_app_assoc (s t u : string) : (s +:+ t) +:+ u = s +:+ t +:+ u.
Proof.
  induction s as [|c s IH]; [done|]. by rewrite !string_app_cons, IH.
Qed.

Lemma plain_not_blank (s : string) :
  allChars isPlain s = true → allChars (λ c, negb (isBlank c)) s = true.
Proof.
  induction s as [|c s IH]; [done|]. simpl.
  intros [Hc Hs]%andb_true_iff. rewrite (IH Hs), andb_true_r.
  unfold isPlain in Hc. by repeat apply andb_true_iff in Hc as [Hc _].
Qed.

Lemma fields_run (u word s : string) :
  allChars (λ c, negb (isBlank c)) u = true →
  fields word (u +:+ s) = fields (word +:+ u) s.
Proof.
  revert word. induction u as [|c u IH]; intros word H.
  - by rewrite string_app_nil_r.
  - simpl in H. apply andb_true_iff in H as [Hc Hu].
    rewrite string_app_cons. simpl. apply negb_true_iff in Hc. rewrite Hc.
    rewrite (IH _ Hu), string_app_assoc. done.
Qed.

Lemma fields_blank (word s : string) :
  fields word (String " " s)
  = if String.eqb word "" then fields "" s else word :: fields "" s.
Proof. reflexivity. Qed.

Lemma fields_words (ws : list string) :
  Forall (λ a, plainWord a = true) ws →
  fields "" (String.concat " " ws) = ws.
Proof.
  induction ws as [|x ws IH]; intros F; [done|].
  apply Forall_cons in F as [Hx F]. specialize (IH F).
  unfold plainWord in Hx. apply andb_true_iff in Hx as [Hne Hp].
  apply plain_not_blank in Hp. apply negb_true_iff in Hne.
  destruct ws as [|y ws].
  - pose proof (fields_run x "" "" Hp) as R.
    rewrite string_app_nil_r in R.
    change (String.concat " " [x]) with x. rewrite R.
    change ("" +:+ x) with x. simpl. by rewrite Hne.
  - change (String.concat " " (x :: y :: ws))
      with (x +:+ String " " (String.concat " " (y :: ws))).
    rewrite (fields_run x "" _ Hp), fields_blank.
    change ("" +:+ x) with x. rewrite Hne. by rewrite IH.
Qed.

Lemma concat_words_app (ws vs : list string) :
  ws ≠ [] → vs ≠ [] →
  String.concat " " (ws ++ vs)
  = String.concat " " ws +:+ " " +:+ String.concat " " vs.
Proof.
  intros Hw Hv. induction ws as [|x ws IH]; [done|].
  destruct ws as [|y ws].
  - simpl. by destruct vs.
  - change (String.concat " " ((x :: y :: ws) ++ vs))
      with (x +:+ " " +:+ String.concat " " ((y :: ws) ++ vs)).
    rewrite IH by done.
    change (String.concat " " (x :: y :: ws))
      with (x +:+ " " +:+ String.concat " " (y :: ws)).
    by rewrite !string_app_assoc.
Qed.

(** The words of the start command, in the order the script appends
    them. *)
Lemma START_CMD_words (GH_TOKEN API_KEY : option string) (args : list string) :
  START_CMD GH_TOKEN API_KEY args
  = String.concat " "
      (["bun"; "run"; "dist/main.js"; "start"]
       ++ (if nonEmpty GH_TOKEN then ["-g"; valueOf GH_TOKEN] else [])
       ++ (if nonEmpty API_KEY then ["--api-key"; valueOf API_KEY] else [])
       ++ args).
Proof.
  unfold START_CMD.
  destruct (nonEmpty GH_TOKEN), (nonEmpty API_KEY);
    destruct args as [|a args]; simpl bool_decide; cbv iota;
    rewrite ?app_nil_r;
    repeat match goal with
           | |- context [?ws ++ ?x :: ?vs] =>
               lazymatch ws with
               | [] => fail
               | _ => rewrite (concat_words_app ws (x :: vs)) by done
               end
           end;
    rewrite ?string_app_assoc; reflexivity.
Qed.

(** X22.  What the container runs.  With [--auth] as first argument it is
    [bun run dist/main.js auth], whatever else is given.  Otherwise, for
    settings and arguments that are plain words, it is [bun run
    dist/main.js start], then [-g] and the GitHub token when one is set,
    then [--api-key] and the key when one is set, then the arguments as
    given. *)
Theorem entrypoint_argv (GH_TOKEN API_KEY : option string) (args : list string) :
  (head args = Some "--auth" →
   entrypoint GH_TOKEN API_KEY args = ["bun"; "run"; "dist/main.js"; "auth"])
  ∧ (default "" (head args) ≠ "--auth" →
     plainSetting GH_TOKEN = true → plainSetting API_KEY = true →
     Forall (λ a, plainWord a = true) args →
     entrypoint GH_TOKEN API_KEY args
     = ["bun"; "run"; "dist/main.js"; "start"]
       ++ (if nonEmpty GH_TOKEN then ["-g"; valueOf GH_TOKEN] else [])
       ++ (if nonEmpty API_KEY then ["--api-key"; valueOf API_KEY] else [])
       ++ args).
Proof.
  unfold entrypoint. split.
  - intros ->. done.
  - intros Hauth HG HK HA.
    apply String.eqb_neq in Hauth. rewrite Hauth, START_CMD_words.
    apply fields_words.
    assert (P : ∀ v, plainSetting v = true →
              Forall (λ a, plainWord a = true)
                (if nonEmpty v then [valueOf v] else [])).
    { intros [s|] Hv; simpl; [|done].
      destruct (String.eqb s "") eqn:E; simpl; [done|].
      simpl in Hv. rewrite E in Hv. by repeat constructor. }
    repeat apply Forall_app_2; try done.
    + by repeat constructor.
    + specialize (P GH_TOKEN HG). destruct (nonEmpty GH_TOKEN); [|done].
      by constructor.
    + specialize (P API_KEY HK). destruct (nonEmpty API_KEY); [|done].
      by constructor.
Qed.

Lemma entrypoint_argv_witness :
  entrypoint (Some "ghp_x") None ["--port"; "4141"]
  = ["bun"; "run"; "dist/main.js"; "start"; "-g"; "ghp_x"; "--port"; "4141"]
  ∧ entrypoint (Some "ghp_x") (Some "k") ["--auth"; "--verbose"]
    = ["bun"; "run"; "dist/main.js"; "auth"].
Proof.
  split.
  - apply (entrypoint_argv (Some "ghp_x") None ["--port"; "4141"]);
      [vm_compute; discriminate | reflexivity | reflexivity
      | repeat constructor].
  - apply (entrypoint_argv (Some "ghp_x") (Some "k") ["--auth"; "--verbose"]).
    reflexivity.
Defined.

(** An argument with a blank in it does not survive the unquoted
    [exec $START_CMD]: it reaches the program as two words. *)
Example entrypoint_splits_blanks :
  entrypoint None None ["--name"; "my proxy"]
  = ["bun"; "run"; "dist/main.js"; "start"; "--name"; "my"; "proxy"].
Proof. reflexivity. Qed.

End EntrypointFacts.
